(** * fsok: the search-and-tree-flattening engine

    A shallow embedding of [fsok.py].  Python strings are sequences of
    Unicode code points and are modelled as [list N]; the module-level
    globals become the fields of a [state] record; the two list objects
    that the program aliases ([files] and [hits]) live in an explicit
    heap of list objects, so that [hits = files] is a copy of a reference
    and [files.reverse()] is seen through both names.  Exceptions are
    values of [exn]; a call returns its result together with the globals
    as they are when it returns or raises.

    The library functions the program calls ([str.split], [str.strip],
    the [in] operator on strings, [posixpath.split], [posixpath.join],
    [os.walk]) are written out after their CPython definitions.  What
    lies outside the process (the directory tree, [fzf], the editor, the
    state file, the environment) is a [world] the program is run in; the
    keys that [getch] delivers are a list.

    The interpreter's recursion limit is part of the world:
    [recursion_depth] is the number of nested activations of
    [path_splitter] that the limit ([sys.getrecursionlimit()], 1000
    unless changed) leaves when [create_levels] is reached along the
    longest call chain, [main], [mainloop], [reload_tree], [find_files],
    [create_levels]; [path_splitter] raises [RecursionError] when its
    recursion needs more.  Along a chain that is one or two calls
    shorter there is room for one or two activations more, which
    [create_levels] and [find_files] are told by their callers.

    Screen drawing ([drawscreen], the curses set-up), logging
    ([easylog]) and the signal handler assign no global and are left
    out: the functions below describe the calls as far as the globals
    go, in a run in which drawing and logging return and no signal
    arrives.  [niceopt] and [store_state] are described on their own
    further down. *)

From Stdlib Require Import ZArith NArith Lia Ascii String Sorted.
From stdpp Require Import base option list gmap.

Local Open Scope list_scope.

(** ** Strings *)

Abbreviation str := (list N).

(** ASCII literals, for readable examples. *)
Definition py (s : string) : str :=
  map N_of_ascii (list_ascii_of_string s).

Definition SEP : N := 47.    (* '/' *)
Definition BAR : N := 124.   (* '|' *)
Definition NL : N := 10.     (* '\n' *)

(** [f.startswith(t)] *)
Fixpoint startswith (f t : str) {struct t} : bool :=
  match t, f with
  | [], _ => true
  | _ :: _, [] => false
  | c :: t', d :: f' => if N.eqb c d then startswith f' t' else false
  end.

(** [f.endswith(t)] *)
Definition endswith (f t : str) : bool := startswith (rev f) (rev t).

(** [t in f]: [t] occurs in [f] at some offset. *)
Fixpoint str_in (t f : str) : bool :=
  if startswith f t then true
  else match f with
       | [] => false
       | _ :: f' => str_in t f'
       end.

(** [c in s] for a single character. *)
Definition char_in (c : N) (s : str) : bool := existsb (N.eqb c) s.

(** [s.split(sep)] for a one-character separator: never empty. *)
Fixpoint str_split (sep : N) (s : str) : list str :=
  match s with
  | [] => [[]]
  | c :: s' =>
      if N.eqb c sep then [] :: str_split sep s'
      else match str_split sep s' with
           | [] => [[c]]
           | h :: t => (c :: h) :: t
           end
  end.

(** [sep.join(l)] *)
Fixpoint str_join (sep : str) (l : list str) : str :=
  match l with
  | [] => []
  | [x] => x
  | x :: l' => x ++ sep ++ str_join sep l'
  end.

(** [str.isspace] on one code point. *)
Definition py_isspace (c : N) : bool :=
  ((9 <=? c) && (c <=? 13) || (28 <=? c) && (c <=? 32)
   || (c =? 133) || (c =? 160) || (c =? 5760)
   || (8192 <=? c) && (c <=? 8202)
   || (c =? 8232) || (c =? 8233) || (c =? 8239) || (c =? 8287)
   || (c =? 12288))%N.

Fixpoint lstrip (s : str) : str :=
  match s with
  | [] => []
  | c :: s' => if py_isspace c then lstrip s' else s
  end.

Definition rstrip (s : str) : str := rev (lstrip (rev s)).

(** [s.strip()] *)
Definition strip (s : str) : str := rstrip (lstrip s).

(** [chr(ch).isprintable()] for [0 <= ch < 255]. *)
Definition isprintable (ch : Z) : bool :=
  ((32 <=? ch) && (ch <=? 126) || (161 <=? ch) && (ch <=? 254) && negb (ch =? 173))%Z.

(** ** posixpath *)

(** [p.rfind('/') + 1]: the length of the longest prefix ending in a
    separator, 0 when there is none. *)
Fixpoint rfind_succ (p : str) : nat :=
  match p with
  | [] => 0
  | c :: p' =>
      match rfind_succ p' with
      | 0 => if N.eqb c SEP then 1 else 0
      | S k => S (S k)
      end
  end.

(** [head.rstrip('/')] *)
Fixpoint lstrip_sep (s : str) : str :=
  match s with
  | [] => []
  | c :: s' => if N.eqb c SEP then lstrip_sep s' else s
  end.

Definition rstrip_sep (s : str) : str := rev (lstrip_sep (rev s)).

(** [head != sep*len(head)] *)
Definition all_sep (s : str) : bool := forallb (N.eqb SEP) s.

(** [posixpath.split] *)
Definition path_split (p : str) : str * str :=
  let i := rfind_succ p in
  let head := take i p in
  let tail := drop i p in
  let head := match head with
              | [] => head
              | _ :: _ => if all_sep head then head else rstrip_sep head
              end in
  (head, tail).

(** [posixpath.join(a, b)] *)
Definition path_join (a b : str) : str :=
  if startswith b [SEP] then b
  else match a with
       | [] => a ++ b
       | _ :: _ => if endswith a [SEP] then a ++ b else a ++ SEP :: b
       end.

(** ** Exceptions *)

Inductive exn :=
  | RecursionError
  | KeyError
  | IndexError
  | ValueError
  | OSError
  | SystemExit (code : Z).

Inductive result (A : Type) :=
  | OK (a : A)
  | Raise (e : exn).
Arguments OK {A} a.
Arguments Raise {A} e.

Definition rbind {A B} (r : result A) (k : A -> result B) : result B :=
  match r with
  | OK a => k a
  | Raise e => Raise e
  end.

(** ** path_splitter *)

(** The recursion of [path_splitter] with room for [fuel] nested
    activations, each with its call of [os.path.split]; [None] when an
    activation more is needed. *)
Fixpoint path_splitter_fuel (fuel : nat) (p : str) : option (list (str * str)) :=
  match fuel with
  | 0 => None
  | S fuel' =>
      let '(t, r) := path_split p in
      match t with
      | _ :: _ =>
          match path_splitter_fuel fuel' t with
          | Some xx => Some (xx ++ [(t, r)])
          | None => None
          end
      | [] =>
          match r with
          | _ :: _ => Some [([], r)]
          | [] => Some []
          end
      end
  end.

(** [path_splitter(p)] called where the interpreter's recursion limit
    leaves room for [depth] nested activations of the function: a
    recursion that needs more raises [RecursionError], which nothing in
    the program catches before [restore_state] or the top level. *)
Definition path_splitter (depth : nat) (p : str) : result (list (str * str)) :=
  match path_splitter_fuel depth p with
  | Some xx => OK xx
  | None => Raise RecursionError
  end.

(** ** create_levels: the tree flattener *)

(** One row of the tree view: [(level, line, name)], [line] being the
    list object taken from [cache]. *)
Abbreviation node := (nat * list Z * str)%type.

Definition BRANCH : str := [9661; 32]%N.   (* the glyph and a space *)

(** A [for] loop whose body may raise. *)
Fixpoint for_each {A S : Type} (body : S -> A -> result S) (l : list A) (s : S)
  : result S :=
  match l with
  | [] => OK s
  | x :: l' => rbind (body s x) (for_each body l')
  end.

(** The locals of [create_levels] that its loops update. *)
Record flat := mkFlat {
  line : Z;
  used : gset str;
  cache : gmap str (list Z);
  curr_levels : list (nat * Z * str * str)
}.

(** [levels] of one hit: [(i, line, parent, name, fullpath)] per token. *)
Definition hit_levels (ln : Z) (path_tokens : list (str * str))
  : list (nat * Z * str * str * str) :=
  imap (fun i x =>
          let name := x.2 in
          let name := if i <? length path_tokens - 1 then BRANCH ++ name else name in
          (i, ln, x.1, name, path_join x.1 x.2))
       path_tokens.

(** Body of [for l in levels]. *)
Definition add_level (s : flat) (l : nat * Z * str * str * str) : result flat :=
  let '(level, xline, parent, name, fullpath) := l in
  if decide (fullpath ∈ used s) then
    match cache s !! fullpath with
    | Some ls =>
        OK (mkFlat (line s) (used s) (<[fullpath := ls ++ [xline]]> (cache s))
                   (curr_levels s))
    | None => Raise KeyError
    end
  else
    OK (mkFlat (line s) ({[fullpath]} ∪ used s) (<[fullpath := [xline]]> (cache s))
               (curr_levels s ++ [(level, xline, name, fullpath)])).

(** Body of [for f in hits]. *)
Definition add_hit (depth : nat) (s : flat) (f : str) : result flat :=
  rbind (path_splitter depth f) (fun path_tokens =>
  let levels := hit_levels (line s) path_tokens in
  let s := mkFlat (line s + 1) (used s) (cache s) (curr_levels s) in
  for_each add_level levels s).

Definition flat0 : flat := mkFlat 0 ∅ ∅ [].

(** Body of [for c in curr_levels]. *)
Definition emit_level (cache : gmap str (list Z)) (out : list node)
    (c : nat * Z * str * str) : result (list node) :=
  let '(level, xline, name, fullpath) := c in
  match cache !! fullpath with
  | Some ls => OK (out ++ [(level, ls, name)])
  | None => Raise KeyError
  end.

(** [create_levels] as a function of the hit list: the value assigned
    to [treeview_levels], [depth] being the recursion depth left to
    [path_splitter]. *)
Definition flatten (depth : nat) (hits : list str) : result (list node) :=
  rbind (for_each (add_hit depth) hits flat0) (fun s =>
  for_each (emit_level (cache s)) (curr_levels s) []).

(** ** The file system, as [os.path.isdir] and [os.walk] see it *)

(** A directory: its sub-directories and its other entries, in listing
    order.  A sub-directory that [os.walk] lists but does not enter (a
    symbolic link, an unreadable directory) is one with nothing below
    it. *)
Inductive dirtree :=
  | Dir (subdirs : list dirent) (nondirs : list str)
with dirent :=
  | Entry (name : str) (sub : dirtree).

Definition entry_name (d : dirent) : str :=
  match d with Entry name _ => name end.

Definition skipdirs : list str :=
  [py ".git"; py ".hg"; py "__pycache__"; py "flask_session"].
Definition skipfiles : list str := [py ".jtv_state"; py ".jtvrc"].

(** [x in l] on a list of strings. *)
Definition mem (x : str) (l : list str) : bool := bool_decide (x ∈ l).

(** [os.walk(top)], top-down, with [dirs[:]] pruned by the caller before
    the descent: the triples [(r, dirs, f)] in the order they are
    yielded. *)
Fixpoint walk (top : str) (t : dirtree) : list (str * list str * list str) :=
  match t with
  | Dir subdirs nondirs =>
      let dirs := filter (fun d => negb (mem d skipdirs)) (map entry_name subdirs) in
      (top, dirs, nondirs)
        :: (fix descend (ds : list dirent) :=
              match ds with
              | [] => []
              | Entry d sub :: ds' =>
                  (if mem d skipdirs then [] else walk (path_join top d) sub)
                    ++ descend ds'
              end) subdirs
  end.

(** ** The globals and the heap of list objects *)

Abbreviation loc := nat.

Record state := mkState {
  heap : list (list str);        (* the list objects, by address *)
  fzf_match : bool;
  treeview : bool;
  treeview_levels : list node;
  active : Z;
  roots : list str;
  mainscreen : bool;             (* [false] is [None] *)
  searchstr : list N;            (* a list of one-character strings *)
  files : loc;
  hits : loc;
  editor : str;
  stderr : list str              (* what was written to [sys.stderr] *)
}.

Definition set_heap (h : list (list str)) (st : state) : state :=
  mkState h (fzf_match st) (treeview st) (treeview_levels st) (active st) (roots st)
          (mainscreen st) (searchstr st) (files st) (hits st) (editor st) (stderr st).
Definition set_fzf_match (b : bool) (st : state) : state :=
  mkState (heap st) b (treeview st) (treeview_levels st) (active st) (roots st)
          (mainscreen st) (searchstr st) (files st) (hits st) (editor st) (stderr st).
Definition set_treeview (b : bool) (st : state) : state :=
  mkState (heap st) (fzf_match st) b (treeview_levels st) (active st) (roots st)
          (mainscreen st) (searchstr st) (files st) (hits st) (editor st) (stderr st).
Definition set_treeview_levels (l : list node) (st : state) : state :=
  mkState (heap st) (fzf_match st) (treeview st) l (active st) (roots st)
          (mainscreen st) (searchstr st) (files st) (hits st) (editor st) (stderr st).
Definition set_active (a : Z) (st : state) : state :=
  mkState (heap st) (fzf_match st) (treeview st) (treeview_levels st) a (roots st)
          (mainscreen st) (searchstr st) (files st) (hits st) (editor st) (stderr st).
Definition set_roots (r : list str) (st : state) : state :=
  mkState (heap st) (fzf_match st) (treeview st) (treeview_levels st) (active st) r
          (mainscreen st) (searchstr st) (files st) (hits st) (editor st) (stderr st).
Definition set_mainscreen (b : bool) (st : state) : state :=
  mkState (heap st) (fzf_match st) (treeview st) (treeview_levels st) (active st) (roots st)
          b (searchstr st) (files st) (hits st) (editor st) (stderr st).
Definition set_searchstr (s : list N) (st : state) : state :=
  mkState (heap st) (fzf_match st) (treeview st) (treeview_levels st) (active st) (roots st)
          (mainscreen st) s (files st) (hits st) (editor st) (stderr st).
Definition set_files (l : loc) (st : state) : state :=
  mkState (heap st) (fzf_match st) (treeview st) (treeview_levels st) (active st) (roots st)
          (mainscreen st) (searchstr st) l (hits st) (editor st) (stderr st).
Definition set_hits (l : loc) (st : state) : state :=
  mkState (heap st) (fzf_match st) (treeview st) (treeview_levels st) (active st) (roots st)
          (mainscreen st) (searchstr st) (files st) l (editor st) (stderr st).
Definition set_editor (e : str) (st : state) : state :=
  mkState (heap st) (fzf_match st) (treeview st) (treeview_levels st) (active st) (roots st)
          (mainscreen st) (searchstr st) (files st) (hits st) e (stderr st).
Definition set_stderr (e : list str) (st : state) : state :=
  mkState (heap st) (fzf_match st) (treeview st) (treeview_levels st) (active st) (roots st)
          (mainscreen st) (searchstr st) (files st) (hits st) (editor st) e.

(** The list object at an address. *)
Definition deref (st : state) (l : loc) : list str := default [] (heap st !! l).

(** The contents of the lists the two names are bound to. *)
Definition files_of (st : state) : list str := deref st (files st).
Definition hits_of (st : state) : list str := deref st (hits st).

(** Both names are bound to objects of the heap. *)
Definition wf (st : state) : Prop :=
  files st < length (heap st) ∧ hits st < length (heap st).

(** ** Calls: the globals threaded through, exceptions carrying them *)

Inductive outcome (A : Type) :=
  | Returns (a : A) (st : state)
  | Raises (e : exn) (st : state).
Arguments Returns {A} a st.
Arguments Raises {A} e st.

Definition M (A : Type) : Type := state -> outcome A.

#[export] Instance M_ret : MRet M := fun A a st => Returns a st.
#[export] Instance M_bind : MBind M := fun A B k m st =>
  match m st with
  | Returns a st' => k a st'
  | Raises e st' => Raises e st'
  end.

Definition raise {A} (e : exn) : M A := fun st => Raises e st.
Definition get : M state := fun st => Returns st st.
Definition modify (f : state -> state) : M unit := fun st => Returns tt (f st).
Definition lift {A} (r : result A) : M A :=
  match r with
  | OK a => mret a
  | Raise e => raise e
  end.

(** The globals a call leaves behind. *)
Definition final {A} (o : outcome A) : state :=
  match o with
  | Returns _ st => st
  | Raises _ st => st
  end.

(** [for x in l: body(x)] *)
Fixpoint for_ {A} (l : list A) (body : A -> M unit) : M unit :=
  match l with
  | [] => mret tt
  | x :: l' => body x;; for_ l' body
  end.

(** A new list object; its address. *)
Definition alloc (v : list str) : M loc := fun st =>
  Returns (length (heap st)) (set_heap (heap st ++ [v]) st).

(** [obj.append(x)], [obj += xs] and [obj.reverse()] on the object at [l]. *)
Definition obj_update (l : loc) (f : list str -> list str) : M unit :=
  modify (fun st => set_heap (<[l := f (deref st l)]> (heap st)) st).

(** ** What lies outside the process *)

Record world := mkWorld {
  (* the directory tree at a root argument; [None]: not a directory *)
  fs : str -> option dirtree;
  (* [echo -e <text> | fzf --filter <query>]: what [communicate] reads
     from the pipe, or the exception of a [Popen] that cannot start *)
  fzf : str -> str -> result str;
  (* [subprocess.call([editor, path])] *)
  run_editor : str -> str -> result Z;
  (* the text of [.fsok.state.txt], when the file is there *)
  state_file : option str;
  (* [os.environ.get("EDITOR")] *)
  env_editor : option str;
  (* the nested activations of [path_splitter] that the interpreter's
     recursion limit leaves when [create_levels] is reached through
     [main], [mainloop], [reload_tree] and [find_files] *)
  recursion_depth : nat
}.

(** ** The program *)

Definition KEY_DOWN : Z := 258.
Definition KEY_UP : Z := 259.
Definition KEY_BACKSPACE : Z := 263.
Definition KEY_F5 : Z := 269.
Definition KEY_RESIZE : Z := 410.

(** The module-level bindings: [files = []] and [hits = []] are two
    objects. *)
Definition init_state (w : world) : state :=
  mkState [[]; []] false true [] 0 [py "src"] false [] 0 1
          (match env_editor w with
           | Some (c :: e) => c :: e
           | _ => py "vim"
           end)
          [].

(** ["[ERROR] directory not found: {}\n".format(root)] *)
Definition not_found (root : str) : str :=
  py "[ERROR] directory not found: " ++ root ++ [NL].

Section Program.

Variable w : world.

(** [spare]: by how many calls the chain that led here is shorter than
    the longest one. *)
Definition create_levels (spare : nat) : M unit :=
  st ← get;
  treeview_levels' ← lift (flatten (recursion_depth w + spare) (hits_of st));
  modify (set_treeview_levels treeview_levels').

Definition fzf_search : M loc :=
  st ← get;
  output ← lift (fzf w (str_join [NL] (files_of st)) (searchstr st));
  alloc (str_split NL (strip output)).

(** [for t in toks: if t in f: hits.append(f); break] *)
Fixpoint toks_loop (toks : list str) (f : str) : M unit :=
  match toks with
  | [] => mret tt
  | t :: toks' =>
      if str_in t f then
        st ← get; obj_update (hits st) (fun l => l ++ [f])
      else toks_loop toks' f
  end.

Definition search_files : M unit :=
  st ← get;
  match searchstr st with
  | [] => modify (set_hits (files st))
  | _ :: _ =>
      if fzf_match st then
        l ← fzf_search; modify (set_hits l)
      else
        l ← alloc []; modify (set_hits l);;
        let tok := searchstr st in
        let multi_search := false in
        let toks := str_split BAR tok in
        let multi_search := if char_in BAR tok then true else multi_search in
        for_ (files_of st) (fun f =>
          if multi_search then toks_loop toks f
          else if str_in tok f then
                 st ← get; obj_update (hits st) (fun l => l ++ [f])
               else mret tt)
  end;;
  st ← get;
  match hits_of st with
  | _ :: _ => modify (set_active 0)
  | [] => modify (set_active (-1))
  end;;
  create_levels 1.

Definition move_active (up : bool) : M unit :=
  st ← get;
  if up then
    if (active st >? 0)%Z then modify (set_active (active st - 1)) else mret tt
  else if treeview st then
    match last (treeview_levels st) with
    | Some (level, line, name) =>
        match line with
        | line0 :: _ =>
            if (active st <? line0)%Z then modify (set_active (active st + 1))
            else mret tt
        | [] => raise IndexError
        end
    | None => mret tt
    end
  else
    if (active st + 1 <? Z.of_nat (length (hits_of st)))%Z
    then modify (set_active (active st + 1))
    else mret tt.

Definition open_file : M unit :=
  st ← get;
  if (active st >=? 0)%Z then
    match hits_of st !! Z.to_nat (active st) with
    | Some f => _ ← lift (run_editor w (editor st) f); mret tt
    | None => raise IndexError
    end
  else mret tt.

(** [spare] as for [create_levels]: 2 under [main], 0 under
    [reload_tree]. *)
Definition find_files (spare : nat) : M unit :=
  st ← get;
  for_ (roots st) (fun root =>
    match fs w root with
    | None =>
        modify (fun st => set_stderr (stderr st ++ [not_found root]) st);;
        raise (SystemExit 1)
    | Some t =>
        for_ (walk root t) (fun '(r, dirs, f) =>
          st ← get;
          obj_update (files st) (fun l =>
            l ++ map (path_join r) (filter (fun x => negb (mem x skipfiles)) f)))
    end);;
  st ← get;
  modify (set_hits (files st));;
  create_levels spare.

Definition reload_tree : M unit :=
  modify (set_treeview_levels []);;
  l ← alloc [];
  modify (set_files l);;
  find_files 0.

(** [restore_state]: every [Exception] is swallowed; [SystemExit] is not
    one. *)
Definition restore_state : M unit := fun st =>
  match state_file w with
  | Some text =>
      match strip text with
      | [] => Returns tt st
      | c :: content =>
          match search_files (set_searchstr (c :: content) st) with
          | Raises (SystemExit n) st' => Raises (SystemExit n) st'
          | Raises _ st' => Returns tt st'
          | Returns _ st' => Returns tt st'
          end
      end
  | None => Returns tt st
  end.

Definition quit_words : list str :=
  [py ":q"; py ":q!"; py ":exit"; py "exit()"].

Inductive loop_end := Quit | Waiting.

(** The [if]/[elif] chain on the key [ch]: the values of [dosearch] and
    whether [break] was reached. *)
Definition dispatch (ch : Z) : M (bool * bool) :=
  st ← get;
  if (ch =? KEY_BACKSPACE)%Z && bool_decide (searchstr st ≠ []) then
    modify (set_searchstr (removelast (searchstr st)));; mret (true, false)
  else if (ch =? KEY_RESIZE)%Z then mret (false, false)
  else if (ch =? 18)%Z then
    obj_update (files st) (@rev str);; mret (true, false)
  else if (ch =? 8)%Z then
    modify (set_searchstr []);; mret (true, false)
  else if (ch =? 10)%Z then
    if mem (searchstr st) quit_words then mret (true, true)
    else open_file;; mret (false, false)
  else if (ch =? 20)%Z then
    modify (set_treeview (negb (treeview st)));; mret (false, false)
  else if (ch =? 11)%Z then
    modify (set_fzf_match (negb (fzf_match st)));; mret (true, false)
  else if (ch >? 255)%Z then
    if (ch =? KEY_UP)%Z then move_active true;; mret (false, false)
    else if (ch =? KEY_DOWN)%Z then move_active false;; mret (false, false)
    else if (ch =? KEY_F5)%Z then reload_tree;; mret (true, false)
    else if (ch =? 330)%Z then modify (set_searchstr []);; mret (false, false)
    else mret (false, false)
  else if (ch <? 255)%Z then
    if (ch <? 0)%Z then raise ValueError
    else if isprintable ch then
      modify (set_searchstr (searchstr st ++ [Z.to_N ch]));; mret (true, false)
    else mret (false, false)
  else mret (true, false).

(** The handling of the key [ch] in one turn of the [while True] loop:
    the [if]/[elif] chain and the search that follows; [true] when the
    turn ends in [break].  The [drawscreen] call before [getch] and the
    [easylog] call after it are not part of it. *)
Definition mainloop_body (ch : Z) : M bool :=
  '(dosearch, stop) ← dispatch ch;
  if stop : bool then mret true
  else if dosearch : bool then search_files;; mret false
  else mret false.

(** The key handling of the successive turns, for the keys [getch]
    delivers; [Waiting] when they are used up and the loop blocks in
    [getch].  This is the loop as far as the globals go: it describes a
    run in which every [drawscreen] and [easylog] call returns and no
    signal arrives.  The real loop can also end before the keys are used
    up, with what [drawscreen] or [easylog] raises or with the
    [SystemExit] of the SIGINT handler; none of them assigns a global. *)
Fixpoint mainloop_from (keys : list Z) : M loop_end :=
  match keys with
  | [] => mret Waiting
  | ch :: keys' =>
      stop ← mainloop_body ch;
      if stop : bool then mret Quit else mainloop_from keys'
  end.

Definition mainloop (keys : list Z) : M loop_end :=
  search_files;; mainloop_from keys.

(** [main] after [niceopt]: the option pairs and the remaining
    arguments.  [sys.exit()] at the end of [quit_peacefully] is
    [SystemExit(0)]. *)
Definition main (opts : list (str * str)) (args : list str) (keys : list Z)
  : M loop_end :=
  for_ opts (fun '(o, a) =>
    (if mem o [py "-h"; py "--help"] then raise (SystemExit 0) else mret tt);;
    (if mem o [py "-v"; py "--version"] then raise (SystemExit 0) else mret tt);;
    (if mem o [py "-f"; py "--fzf"] then modify (set_fzf_match true) else mret tt);;
    (if mem o [py "-e"; py "--editor"] then modify (set_editor a) else mret tt));;
  match args with
  | _ :: _ => modify (set_roots args)
  | [] => mret tt
  end;;
  find_files 2;;
  modify (set_mainscreen true);;
  restore_state;;
  e ← mainloop keys;
  match e with
  | Quit => raise (SystemExit 0)
  | Waiting => mret Waiting
  end.

End Program.

(** * Properties *)

(** ** Substrings and splitting *)

(** [t] is a contiguous substring of [f]. *)
Definition substring (t f : str) : Prop := ∃ a b, f = a ++ t ++ b.

Lemma startswith_spec (f t : str) : startswith f t = true ↔ ∃ b, f = t ++ b.
Proof.
  revert f. induction t as [|c t IH]; intros f; simpl.
  - split; [intros _; by exists f | done].
  - destruct f as [|d f].
    + split; [done | intros [b Hb]; discriminate].
    + destruct (N.eqb_spec c d) as [->|Hne].
      * rewrite IH. split; intros [b Hb]; exists b; simpl in *; congruence.
      * split; [done | intros [b Hb]; simpl in Hb; congruence].
Qed.

Lemma str_in_spec (t f : str) : str_in t f = true ↔ substring t f.
Proof.
  unfold substring. induction f as [|d f IH]; simpl.
  - destruct (startswith [] t) eqn:E.
    + apply startswith_spec in E as [b Hb]. split; [intros _ | done].
      exists [], b. done.
    + split; [done | intros (a & b & Hab)]. exfalso.
      symmetry in Hab. apply app_eq_nil in Hab as [-> Hab].
      apply app_eq_nil in Hab as [-> ->]. discriminate E.
  - destruct (startswith (d :: f) t) eqn:E.
    + apply startswith_spec in E as [b Hb]. split; [intros _ | done].
      exists [], b. done.
    + rewrite IH. split.
      * intros (a & b & ->). by exists (d :: a), b.
      * intros (a & b & Hab). destruct a as [|x a].
        -- simpl in Hab. assert (startswith (d :: f) t = true) as E'
             by (apply startswith_spec; eauto).
           congruence.
        -- exists a, b. simpl in Hab. congruence.
Qed.

#[export] Instance substring_dec (t f : str) : Decision (substring t f).
Proof.
  refine (cast_if (decide (str_in t f = true))); by rewrite <- str_in_spec.
Defined.

Lemma str_in_nil (f : str) : str_in [] f = true.
Proof. by destruct f. Qed.

Lemma str_split_not_nil (sep : N) (s : str) : str_split sep s ≠ [].
Proof.
  destruct s as [|c s]; simpl; [done|].
  destruct (N.eqb c sep); [done|]. by destruct (str_split sep s).
Qed.

Lemma char_in_false (c : N) (s : str) : char_in c s = false ↔ c ∉ s.
Proof.
  unfold char_in. induction s as [|d s IH]; simpl.
  - split; [intros _; apply not_elem_of_nil | done].
  - rewrite not_elem_of_cons, orb_false_iff, IH, N.eqb_neq. tauto.
Qed.

Lemma char_in_true (c : N) (s : str) : char_in c s = true ↔ c ∈ s.
Proof.
  destruct (char_in c s) eqn:E.
  - split; [intros _ | done]. destruct (decide (c ∈ s)) as [|Hn]; [done|].
    apply char_in_false in Hn. congruence.
  - apply char_in_false in E. split; [done | intros; contradiction].
Qed.

(** Joining the pieces with the separator gives the string back. *)
Lemma str_join_split (sep : N) (s : str) : str_join [sep] (str_split sep s) = s.
Proof.
  induction s as [|c s IH]; simpl; [done|].
  destruct (N.eqb_spec c sep) as [->|_].
  - pose proof (str_split_not_nil sep s).
    destruct (str_split sep s) as [|h t] eqn:E; [done|]. simpl in *. by rewrite IH.
  - destruct (str_split sep s) as [|h t] eqn:E; [by destruct (str_split_not_nil sep s)|].
    destruct t; simpl in *; by rewrite <- IH.
Qed.

(** No piece contains the separator. *)
Lemma str_split_no_sep (sep : N) (s x : str) : x ∈ str_split sep s → sep ∉ x.
Proof.
  revert x. induction s as [|c s IH]; simpl; intros x Hx.
  - apply list_elem_of_singleton in Hx as ->. apply not_elem_of_nil.
  - destruct (N.eqb_spec c sep) as [->|Hne].
    + apply elem_of_cons in Hx as [->|Hx]; [apply not_elem_of_nil | by apply IH].
    + destruct (str_split sep s) as [|h t] eqn:E.
      * apply list_elem_of_singleton in Hx as ->.
        apply not_elem_of_cons; split; [done | apply not_elem_of_nil].
      * apply elem_of_cons in Hx as [->|Hx].
        -- apply not_elem_of_cons; split; [done|]. apply IH. left.
        -- apply IH. by right.
Qed.

(** ** Running the calls *)

Lemma bind_run {A B} (m : M A) (k : A → M B) (st : state) :
  (m ≫= k) st =
    match m st with
    | Returns a st' => k a st'
    | Raises e st' => Raises e st'
    end.
Proof. reflexivity. Qed.

Lemma ret_run {A} (a : A) (st : state) : mret (M := M) a st = Returns a st.
Proof. reflexivity. Qed.

Lemma get_run (st : state) : get st = Returns st st.
Proof. reflexivity. Qed.

Lemma modify_run (f : state → state) (st : state) : modify f st = Returns tt (f st).
Proof. reflexivity. Qed.

Lemma raise_run {A} (e : exn) (st : state) : raise (A := A) e st = Raises e st.
Proof. reflexivity. Qed.

Lemma obj_update_run (l : loc) (f : list str → list str) (st : state) :
  obj_update l f st = Returns tt (set_heap (<[l := f (deref st l)]> (heap st)) st).
Proof. reflexivity. Qed.

Lemma alloc_run (v : list str) (st : state) :
  alloc v st = Returns (length (heap st)) (set_heap (heap st ++ [v]) st).
Proof. reflexivity. Qed.

Ltac run :=
  repeat (rewrite ?bind_run, ?get_run, ?modify_run, ?ret_run, ?raise_run,
            ?obj_update_run, ?alloc_run; simpl).

Lemma set_heap_id (st : state) : set_heap (heap st) st = st.
Proof. by destruct st. Qed.

Lemma deref_lookup (st : state) (l : loc) :
  l < length (heap st) → heap st !! l = Some (deref st l).
Proof.
  intros Hl. unfold deref. destruct (heap st !! l) eqn:E; [done|].
  apply lookup_ge_None in E. lia.
Qed.

Lemma deref_set_heap (h : list (list str)) (st : state) (l : loc) :
  deref (set_heap h st) l = default [] (h !! l).
Proof. reflexivity. Qed.

Lemma deref_insert_eq (st : state) (l : loc) (v : list str) :
  l < length (heap st) → deref (set_heap (<[l := v]> (heap st)) st) l = v.
Proof. intros Hl. rewrite deref_set_heap. by rewrite list_lookup_insert_eq. Qed.

Lemma set_heap_set_heap (h h' : list (list str)) (st : state) :
  set_heap h (set_heap h' st) = set_heap h st.
Proof. reflexivity. Qed.

Lemma create_levels_run (w : world) (spare : nat) (st : state) :
  create_levels w spare st =
    match flatten (recursion_depth w + spare) (hits_of st) with
    | OK lv => Returns tt (set_treeview_levels lv st)
    | Raise e => Raises e st
    end.
Proof. unfold create_levels. run. by destruct (flatten _ (hits_of st)). Qed.

(** [create_levels] only ever assigns [treeview_levels]. *)
Lemma create_levels_final (w : world) (spare : nat) (st : state) :
  final (create_levels w spare st) =
    match flatten (recursion_depth w + spare) (hits_of st) with
    | OK lv => set_treeview_levels lv st
    | Raise _ => st
    end.
Proof. rewrite create_levels_run. by destruct (flatten _ (hits_of st)). Qed.

(** The loop over the sub-tokens appends [f] once if some sub-token
    occurs in it, and stops at the first that does. *)
Lemma toks_loop_run (toks : list str) (f : str) (st : state) :
  toks_loop toks f st =
    if existsb (fun t => str_in t f) toks
    then obj_update (hits st) (fun l => l ++ [f]) st
    else Returns tt st.
Proof.
  induction toks as [|t toks IH]; simpl; [done|].
  destruct (str_in t f); simpl; [done | apply IH].
Qed.

(** The loop tests the sub-tokens in order and stops at the first that
    occurs in the path: what follows it is not looked at, and the path is
    appended once. *)
Lemma toks_loop_first_match (before after : list str) (t f : str) (st : state) :
  Forall (fun u => ¬ substring u f) before → substring t f →
  toks_loop (before ++ t :: after) f st
  = obj_update (hits st) (fun l => l ++ [f]) st.
Proof.
  intros Hb Ht. induction before as [|u before IH]; simpl.
  - apply str_in_spec in Ht. by rewrite Ht.
  - apply Forall_cons in Hb as [Hu Hb].
    destruct (str_in u f) eqn:E; [by apply str_in_spec in E | by apply IH].
Qed.

(** A loop that appends the elements a test keeps leaves the kept
    elements, in order, at the end of the list [hits] is bound to. *)
Lemma for_append (keep : str → bool) (l : list str) (st : state) :
  hits st < length (heap st) →
  for_ l (fun f => if keep f
                   then st ← get; obj_update (hits st) (fun l => l ++ [f])
                   else mret tt) st
  = Returns tt (set_heap (<[hits st := hits_of st ++ List.filter keep l]> (heap st)) st).
Proof.
  revert st. induction l as [|x l IH]; intros st Hh; simpl.
  - rewrite app_nil_r. unfold hits_of.
    rewrite list_insert_id by by apply deref_lookup.
    by rewrite set_heap_id.
  - rewrite bind_run. destruct (keep x); simpl.
    + run.
      set (st1 := set_heap (<[hits st:=deref st (hits st) ++ [x]]> (heap st)) st).
      assert (hits st1 < length (heap st1)) as H1
          by (subst st1; simpl; by rewrite length_insert).
      rewrite (IH st1 H1).
      f_equal. subst st1. unfold hits_of. simpl.
      rewrite deref_insert_eq by done. rewrite set_heap_set_heap.
      rewrite list_insert_insert_eq. by rewrite <- app_assoc.
    + run. by rewrite (IH st Hh).
Qed.

Lemma for_ext {A} (l : list A) (body body' : A → M unit) (st : state) :
  (∀ x st, body x st = body' x st) → for_ l body st = for_ l body' st.
Proof.
  intros Hb. revert st. induction l as [|x l IH]; intros st; simpl; [done|].
  rewrite !bind_run, Hb. destruct (body' x st); [apply IH | done].
Qed.

(** ** The substring/OR matcher *)

(** The test the regular matcher applies to a path. *)
Definition keeps (tok f : str) : bool :=
  if char_in BAR tok then existsb (fun t => str_in t f) (str_split BAR tok)
  else str_in tok f.

(** The regular matcher binds [hits] to a new list holding the kept
    paths, sets [active] by its emptiness, and flattens. *)
Lemma search_files_regular (w : world) (st : state) :
  wf st → searchstr st ≠ [] → fzf_match st = false →
  let kept := List.filter (keeps (searchstr st)) (files_of st) in
  search_files w st =
    create_levels w 1
      (set_active (match kept with [] => -1 | _ :: _ => 0 end)
         (set_hits (length (heap st)) (set_heap (heap st ++ [kept]) st))).
Proof.
  intros [Hf Hh] Hs Hm kept. unfold search_files.
  rewrite bind_run, get_run. rewrite bind_run.
  destruct (searchstr st) as [|c s] eqn:Es; [done|]. rewrite Hm.
  rewrite bind_run, alloc_run, bind_run, modify_run.
  set (st1 := set_hits _ _).
  rewrite (for_ext _ _ (fun f => if keeps (c :: s) f
                                then st ← get; obj_update (hits st) (fun l => l ++ [f])
                                else mret tt)).
  2:{ intros f st'. unfold keeps. destruct (char_in BAR (c :: s)).
      - rewrite toks_loop_run. by destruct (existsb _ _).
      - done. }
  assert (hits st1 < length (heap st1)) as H1.
  { subst st1. simpl. rewrite length_app. simpl. lia. }
  rewrite (for_append _ _ st1 H1).
  assert (files_of st = files_of st1) as Hfiles.
  { subst st1. unfold files_of, deref. simpl. by rewrite lookup_app_l. }
  assert (hits_of st1 = []) as Hnil.
  { subst st1. unfold hits_of, deref. simpl.
    rewrite lookup_app_r by lia. by rewrite Nat.sub_diag. }
  rewrite Hnil. simpl. fold kept.
  rewrite bind_run, get_run, bind_run.
  set (st2 := set_heap _ st1).
  assert (hits_of st2 = kept) as Hk.
  { subst st2. unfold hits_of, deref. simpl. by rewrite list_lookup_insert_eq. }
  rewrite Hk.
  assert (set_heap (heap st ++ [kept]) st = set_heap (heap st2) st) as ->.
  { subst st2 st1. simpl. f_equal.
    rewrite insert_app_r_alt by lia. by rewrite Nat.sub_diag. }
  destruct kept; rewrite modify_run; by destruct st.
Qed.

Lemma filter_bool_prop {A} (keep : A → bool) (P : A → Prop)
    `{!∀ x, Decision (P x)} (l : list A) :
  (∀ x, keep x = true ↔ P x) → List.filter keep l = filter P l.
Proof.
  intros HP. induction l as [|x l IH]; simpl; [done|].
  destruct (keep x) eqn:E.
  - rewrite filter_cons_True by by apply HP. by rewrite IH.
  - rewrite filter_cons_False; [done|]. rewrite <- HP. congruence.
Qed.

Lemma existsb_substring (toks : list str) (f : str) :
  existsb (fun t => str_in t f) toks = true ↔ Exists (fun t => substring t f) toks.
Proof.
  rewrite existsb_exists, Exists_exists. split.
  - intros (t & Ht & Hs). exists t. split; [by apply list_elem_of_In|].
    by apply str_in_spec.
  - intros (t & Ht & Hs). exists t. split; [by apply list_elem_of_In|].
    by apply str_in_spec.
Qed.

(** What a search in regular mode leaves in the globals. *)
Lemma search_files_regular_final (w : world) (st : state) :
  wf st → searchstr st ≠ [] → fzf_match st = false →
  let st' := final (search_files w st) in
  hits_of st' = List.filter (keeps (searchstr st)) (files_of st)
  ∧ files_of st' = files_of st
  ∧ active st' = (match hits_of st' with [] => -1 | _ :: _ => 0 end)%Z.
Proof.
  intros Hwf Hs Hm. pose proof Hwf as [Hf Hh]. simpl.
  rewrite search_files_regular by done.
  rewrite create_levels_final.
  set (kept := List.filter _ _).
  set (st1 := set_active _ _).
  assert (hits_of st1 = kept) as Hk.
  { subst st1. unfold hits_of, deref. simpl.
    rewrite lookup_app_r by lia. by rewrite Nat.sub_diag. }
  assert (files_of st1 = files_of st) as Hfs.
  { subst st1. unfold files_of, deref. simpl. by rewrite lookup_app_l. }
  assert (active st1 = match kept with [] => -1 | _ :: _ => 0 end%Z) as Ha by done.
  destruct (flatten _ (hits_of st1)); by rewrite <- Hk in *.
Qed.

(** The paths and token of the scenarios in the specification. *)
Definition demo_files : list str :=
  [py "a/b/x.txt"; py "a/b/y.txt"; py "a/c/z.txt"].

(** A recursion depth of the order the default limit of 1000 frames
    leaves to [path_splitter]. *)
Definition default_depth : nat := 990.

(** A world without [fzf], editor, state file or directories. *)
Definition bare_world : world :=
  mkWorld (fun _ => None) (fun _ _ => Raise OSError) (fun _ _ => Raise OSError)
          None None default_depth.

Definition demo_state (tok : str) : state :=
  mkState [demo_files; []] false true [] 0 [py "src"] true tok 0 1 (py "vim") [].

(** C1: for a token containing ['|'], the regular matcher leaves in the
    Hit List exactly the paths in which at least one of the pieces of
    the token split on ['|'] occurs as a contiguous substring, in
    path-list order, each occurrence of a path kept once however many
    pieces match it (the Hit List is the path list filtered); the path
    list itself is unchanged.  A path is tested against the pieces in
    split order, and the test stops with one append at the first piece
    that occurs in it. *)
Theorem or_search_hit_list (w : world) (st : state) :
  wf st → fzf_match st = false → char_in BAR (searchstr st) = true →
  let toks := str_split BAR (searchstr st) in
  let st' := final (search_files w st) in
  hits_of st' = filter (fun f => Exists (fun t => substring t f) toks) (files_of st)
  ∧ files_of st' = files_of st
  ∧ (∀ before t after f st0,
       toks = before ++ t :: after →
       Forall (fun u => ¬ substring u f) before → substring t f →
       toks_loop toks f st0 = obj_update (hits st0) (fun l => l ++ [f]) st0).
Proof.
  intros Hwf Hm Hbar toks st'.
  assert (searchstr st ≠ []) as Hs by (intros E; rewrite E in Hbar; discriminate).
  destruct (search_files_regular_final w st Hwf Hs Hm) as (Hh & Hf & _).
  split; [|split; [done|]].
  - subst st'. rewrite Hh.
    apply filter_bool_prop. intros f. unfold keeps. rewrite Hbar.
    apply existsb_substring.
  - intros before t after f st0 -> Hb Ht. by apply toks_loop_first_match.
Qed.

Lemma or_search_hit_list_witness :
  let st := demo_state (py "x.|z.") in
  let toks := [py "x."; py "z."] in
  let st' := final (search_files bare_world st) in
  hits_of st' = filter (fun f => Exists (fun t => substring t f) toks) demo_files
  ∧ files_of st' = files_of st
  ∧ (∀ before t after f st0,
       toks = before ++ t :: after →
       Forall (fun u => ¬ substring u f) before → substring t f →
       toks_loop toks f st0 = obj_update (hits st0) (fun l => l ++ [f]) st0).
Proof.
  apply (or_search_hit_list bare_world (demo_state (py "x.|z."))).
  - split; simpl; lia.
  - reflexivity.
  - reflexivity.
Defined.

(** Token [x.|z.] on the scenario's paths. *)
Example or_search_scenario :
  hits_of (final (search_files bare_world (demo_state (py "x.|z."))))
  = [py "a/b/x.txt"; py "a/c/z.txt"].
Proof. vm_compute. reflexivity. Qed.

(** C5: for a non-empty token without ['|'], the regular matcher leaves
    in the Hit List exactly the paths containing the whole token as a
    contiguous substring, in path-list order. *)
Theorem plain_search_hit_list (w : world) (st : state) :
  wf st → fzf_match st = false →
  searchstr st ≠ [] → char_in BAR (searchstr st) = false →
  let st' := final (search_files w st) in
  hits_of st' = filter (substring (searchstr st)) (files_of st)
  ∧ files_of st' = files_of st.
Proof.
  intros Hwf Hm Hs Hbar st'.
  destruct (search_files_regular_final w st Hwf Hs Hm) as (Hh & Hf & _).
  split; [|done]. subst st'. rewrite Hh.
  apply filter_bool_prop. intros f. unfold keeps. rewrite Hbar.
  apply str_in_spec.
Qed.

Lemma plain_search_hit_list_witness :
  let st := demo_state (py "a/b") in
  let st' := final (search_files bare_world st) in
  hits_of st' = filter (substring (py "a/b")) demo_files
  ∧ files_of st' = files_of st.
Proof.
  apply (plain_search_hit_list bare_world (demo_state (py "a/b"))).
  - split; simpl; lia.
  - reflexivity.
  - discriminate.
  - reflexivity.
Defined.

Example plain_search_scenario :
  hits_of (final (search_files bare_world (demo_state (py "a/b"))))
  = [py "a/b/x.txt"; py "a/b/y.txt"].
Proof. vm_compute. reflexivity. Qed.

(** C7: when a non-empty token contains ['|'] and one of its pieces is
    empty, every path is a hit: the Hit List has the contents of the
    path list, in order. *)
Theorem empty_subtoken_matches_all (w : world) (st : state) :
  wf st → fzf_match st = false →
  searchstr st ≠ [] → char_in BAR (searchstr st) = true →
  [] ∈ str_split BAR (searchstr st) →
  hits_of (final (search_files w st)) = files_of st.
Proof.
  intros Hwf Hm Hs Hbar Hnil.
  destruct (search_files_regular_final w st Hwf Hs Hm) as (Hh & _ & _).
  simpl in Hh. rewrite Hh. clear Hh.
  induction (files_of st) as [|f l IH]; simpl; [done|].
  assert (keeps (searchstr st) f = true) as ->; [|by rewrite IH].
  unfold keeps. rewrite Hbar. apply existsb_exists.
  exists []. split; [by apply list_elem_of_In | apply str_in_nil].
Qed.

Lemma empty_subtoken_matches_all_witness :
  hits_of (final (search_files bare_world (demo_state (py "zzz|")))) = demo_files.
Proof.
  apply (empty_subtoken_matches_all bare_world (demo_state (py "zzz|"))).
  - split; simpl; lia.
  - reflexivity.
  - discriminate.
  - reflexivity.
  - vm_compute. apply list_elem_of_In. right. left. reflexivity.
Defined.

(** ** The empty token *)

Lemma search_files_empty (w : world) (st : state) :
  searchstr st = [] →
  search_files w st =
    create_levels w 1
      (set_active (match files_of st with [] => -1 | _ :: _ => 0 end)
         (set_hits (files st) st)).
Proof.
  intros Hs. unfold search_files.
  rewrite bind_run, get_run, bind_run, Hs, modify_run, bind_run, get_run, bind_run.
  change (hits_of (set_hits (files st) st)) with (files_of st).
  by destruct (files_of st).
Qed.

(** C6: with an empty token, in either matcher mode, [hits] is bound to
    the very list object [files] is bound to: the two names hold the same
    address, no list is created or changed, and so the Hit List is the
    full path sequence. *)
Theorem empty_token_hits_is_files (w : world) (st : state) :
  searchstr st = [] →
  let st' := final (search_files w st) in
  hits st' = files st'
  ∧ files st' = files st
  ∧ heap st' = heap st
  ∧ hits_of st' = files_of st.
Proof.
  intros Hs. simpl. rewrite search_files_empty by done.
  rewrite create_levels_final.
  destruct (flatten _ _); done.
Qed.

Lemma empty_token_hits_is_files_witness :
  let st := set_fzf_match true (demo_state []) in
  let st' := final (search_files bare_world st) in
  hits st' = files st'
  ∧ files st' = files st
  ∧ heap st' = heap st
  ∧ hits_of st' = files_of st.
Proof.
  apply (empty_token_hits_is_files bare_world (set_fzf_match true (demo_state []))).
  reflexivity.
Defined.

(** Sharing is observable: after an empty search, what [files.reverse()]
    or [files += ...] does to the path list is seen through [hits]. *)
Lemma empty_token_aliasing (w : world) (st : state) (g : list str → list str) :
  wf st → searchstr st = [] →
  let st' := final (search_files w st) in
  hits_of (final (obj_update (files st') g st')) = g (files_of st).
Proof.
  intros [Hf _] Hs st'.
  assert (hits st' = files st ∧ files st' = files st ∧ heap st' = heap st)
    as (Hh & Hfs & Hheap).
  { subst st'. rewrite search_files_empty by done. rewrite create_levels_final.
    by destruct (flatten _ _). }
  rewrite obj_update_run. unfold hits_of, final, deref at 1. simpl.
  rewrite Hh, Hfs, list_lookup_insert_eq by (rewrite Hheap; done). simpl.
  f_equal. unfold files_of, deref. by rewrite Hheap.
Qed.

(** ** Navigation *)

(** The largest line number of a line-index list. *)
Definition line_max (ln : list Z) : option Z :=
  match ln with
  | [] => None
  | x :: l => Some (foldr Z.max x l)
  end.

(** The last valid index of the current view: the last position of the
    Hit List in flat view, the largest line number recorded in the last
    Display Node in tree view; none in the empty state. *)
Definition last_index (st : state) : option Z :=
  if treeview st then
    match last (treeview_levels st) with
    | Some (_, ln, _) => line_max ln
    | None => None
    end
  else
    match hits_of st with
    | [] => None
    | _ :: _ => Some (Z.of_nat (length (hits_of st)) - 1)%Z
    end.

(** The Active Index is in the range of the current view: within
    [0 .. last_index], or [-1] in the empty state (nothing to show). *)
Definition in_range (st : state) : Prop :=
  match last_index st with
  | Some m => (0 ≤ active st ≤ m)%Z
  | None => active st = (-1)%Z ∧ (treeview st = true → treeview_levels st = [])
  end.

(** A sequence of up ([true]) and down ([false]) intents. *)
Definition moves (ms : list bool) : M unit := for_ ms move_active.

Lemma last_index_set_active (a : Z) (st : state) :
  last_index (set_active a st) = last_index st.
Proof. reflexivity. Qed.

Lemma set_active_id (st : state) : set_active (active st) st = st.
Proof. by destruct st. Qed.

Lemma line_max_first (x : Z) (l : list Z) (m : Z) :
  line_max (x :: l) = Some m → (x ≤ m)%Z.
Proof.
  simpl. intros [= <-]. induction l as [|y l IH]; simpl; lia.
Qed.

Lemma move_up_run (st : state) :
  move_active true st =
    Returns tt (if (active st >? 0)%Z then set_active (active st - 1) st else st).
Proof.
  unfold move_active. rewrite bind_run, get_run.
  by destruct (active st >? 0)%Z.
Qed.

Lemma move_down_flat_run (st : state) :
  treeview st = false →
  move_active false st =
    Returns tt (if (active st + 1 <? Z.of_nat (length (hits_of st)))%Z
                then set_active (active st + 1) st else st).
Proof.
  intros Ht. unfold move_active. rewrite bind_run, get_run, Ht.
  by destruct (active st + 1 <? _)%Z.
Qed.

Lemma move_down_tree_empty_run (st : state) :
  treeview st = true → treeview_levels st = [] →
  move_active false st = Returns tt st.
Proof.
  intros Ht Hl. unfold move_active. by rewrite bind_run, get_run, Ht, Hl.
Qed.

(** In tree view the down intent looks at the first line of the last
    node only. *)
Lemma move_down_tree_run (st : state) (level : nat) (line0 : Z)
    (line : list Z) (name : str) :
  treeview st = true →
  last (treeview_levels st) = Some (level, line0 :: line, name) →
  move_active false st =
    Returns tt (if (active st <? line0)%Z then set_active (active st + 1) st else st).
Proof.
  intros Ht Hl. unfold move_active. rewrite bind_run, get_run, Ht, Hl.
  by destruct (active st <? line0)%Z.
Qed.

(** C3 (amended): in tree view, with a non-empty Display Node sequence
    whose last node has recorded lines, a down intent returns and adds 1
    to the Active Index if and only if the Active Index is less than the
    FIRST line number recorded in the last Display Node; otherwise it
    changes nothing; no other global changes. *)
Theorem move_down_tree_first_line (st : state) (level : nat) (line0 : Z)
    (line : list Z) (name : str) :
  treeview st = true →
  last (treeview_levels st) = Some (level, line0 :: line, name) →
  ∃ st', move_active false st = Returns tt st'
         ∧ (active st' = active st + 1 ↔ active st < line0)%Z
         ∧ (¬ (active st < line0)%Z → st' = st)
         ∧ st' = set_active (active st') st.
Proof.
  intros Ht Hl. rewrite (move_down_tree_run st level line0 line name Ht Hl).
  destruct (Z.ltb_spec (active st) line0) as [Hlt|Hge].
  - eexists. split; [done|]. simpl. split; [tauto|]. split; [lia | done].
  - exists st. split; [done|]. split; [lia|]. split; [done|].
    by rewrite set_active_id.
Qed.

(** The same path found twice, as under [fsok a a]. *)
Definition twice_state : state :=
  mkState [[py "a/x"; py "a/x"]; []] false true [] 0 [py "a"; py "a"] true [] 0 1
          (py "vim") [].

Definition twice_searched : state := final (search_files bare_world twice_state).

Lemma move_down_tree_first_line_witness :
  ∃ st', move_active false twice_searched = Returns tt st'
         ∧ (active st' = active twice_searched + 1 ↔ active twice_searched < 0)%Z
         ∧ (¬ (active twice_searched < 0)%Z → st' = twice_searched)
         ∧ st' = set_active (active st') twice_searched.
Proof.
  apply (move_down_tree_first_line twice_searched 1 0 [1%Z] (py "x")).
  - reflexivity.
  - vm_compute. reflexivity.
Defined.

(** C3 as stated fails: after the search over a path list holding
    [a/x] twice, the last Display Node records lines 0 and 1, the Active
    Index 0 is below their maximum 1, and the down intent leaves it
    at 0. *)
Lemma move_down_tree_max_counterexample :
  treeview twice_searched = true
  ∧ last (treeview_levels twice_searched) = Some (1, [0; 1]%Z, py "x")
  ∧ line_max [0; 1]%Z = Some 1%Z
  ∧ active twice_searched = 0%Z
  ∧ move_active false twice_searched = Returns tt twice_searched.
Proof. vm_compute. repeat split. Qed.

(** One intent from a state in range: it returns, changes nothing but
    the Active Index, and stays in range. *)
Lemma move_active_in_range (up : bool) (st : state) :
  in_range st →
  ∃ a, move_active up st = Returns tt (set_active a st) ∧ in_range (set_active a st).
Proof.
  intros Hr. destruct up.
  - rewrite move_up_run. destruct (Z.gtb_spec (active st) 0) as [Hgt|Hle].
    + exists (active st - 1)%Z. split; [done|]. unfold in_range in *.
      rewrite last_index_set_active. destruct (last_index st); simpl; lia.
    + exists (active st). by rewrite set_active_id.
  - destruct (treeview st) eqn:Ht.
    + destruct (last (treeview_levels st)) as [[[level ln] name]|] eqn:Hl.
      * destruct ln as [|line0 line].
        { unfold in_range, last_index in Hr. rewrite Ht, Hl in Hr. simpl in Hr.
          destruct Hr as [_ Hnil]. rewrite Hnil in Hl; [discriminate | done]. }
        rewrite (move_down_tree_run st level line0 line name Ht Hl).
        destruct (Z.ltb_spec (active st) line0) as [Hlt|Hge].
        -- exists (active st + 1)%Z. split; [done|]. unfold in_range in *.
           rewrite last_index_set_active. unfold last_index in *.
           rewrite Ht, Hl in *. destruct (line_max (line0 :: line)) as [m|] eqn:Hm;
             [|discriminate].
           apply line_max_first in Hm. simpl. lia.
        -- exists (active st). by rewrite set_active_id.
      * apply last_None in Hl.
        rewrite move_down_tree_empty_run by done.
        exists (active st). by rewrite set_active_id.
    + rewrite move_down_flat_run by done.
      destruct (Z.ltb_spec (active st + 1) (Z.of_nat (length (hits_of st)))) as [Hlt|Hge].
      * exists (active st + 1)%Z. split; [done|]. unfold in_range in *.
        rewrite last_index_set_active. unfold last_index in *. rewrite Ht in *.
        destruct (hits_of st); simpl in *; lia.
      * exists (active st). by rewrite set_active_id.
Qed.

Lemma moves_in_range (ms : list bool) (st : state) :
  in_range st →
  ∃ a, moves ms st = Returns tt (set_active a st) ∧ in_range (set_active a st).
Proof.
  revert st. induction ms as [|up ms IH]; intros st Hr.
  - exists (active st). by rewrite set_active_id.
  - destruct (move_active_in_range up st Hr) as (a & Hrun & Hr1).
    destruct (IH _ Hr1) as (b & Hrun' & Hr2).
    exists b. unfold moves in *. simpl. rewrite bind_run, Hrun, Hrun'. done.
Qed.

(** C8: navigation keeps the Active Index in range.  From a state in
    range, an up intent at Active Index 0 or -1 changes nothing; a down
    intent at the last valid index of the current view (flat or tree)
    changes nothing; and any sequence of up and down intents returns,
    changes nothing but the Active Index, and leaves it in the range of
    the current view. *)
Theorem navigation_stays_in_range (st : state) (ms : list bool) :
  in_range st →
  ((active st = 0 ∨ active st = -1)%Z → move_active true st = Returns tt st)
  ∧ (last_index st = Some (active st) → move_active false st = Returns tt st)
  ∧ ∃ a, moves ms st = Returns tt (set_active a st) ∧ in_range (set_active a st).
Proof.
  intros Hr. split; [|split].
  - intros Ha. rewrite move_up_run.
    destruct (Z.gtb_spec (active st) 0); [lia | done].
  - intros Hlast. unfold last_index in Hlast. destruct (treeview st) eqn:Ht.
    + destruct (last (treeview_levels st)) as [[[level ln] name]|] eqn:Hl; [|done].
      destruct ln as [|line0 line]; [done|].
      rewrite (move_down_tree_run st level line0 line name Ht Hl).
      apply line_max_first in Hlast.
      destruct (Z.ltb_spec (active st) line0); [lia | done].
    + rewrite move_down_flat_run by done.
      destruct (hits_of st) as [|h l]; [done|]. injection Hlast as Hlast.
      destruct (Z.ltb_spec (active st + 1) (Z.of_nat (length (h :: l))));
        [simpl length in *; lia | done].
  - by apply moves_in_range.
Qed.

(** The scenario's three paths after an empty search, in tree view. *)
Definition demo_searched : state := final (search_files bare_world (demo_state [])).

Lemma navigation_stays_in_range_witness :
  ((active demo_searched = 0 ∨ active demo_searched = -1)%Z →
     move_active true demo_searched = Returns tt demo_searched)
  ∧ (last_index demo_searched = Some (active demo_searched) →
     move_active false demo_searched = Returns tt demo_searched)
  ∧ ∃ a, moves [false; false; false; true; false] demo_searched
         = Returns tt (set_active a demo_searched)
         ∧ in_range (set_active a demo_searched).
Proof.
  apply (navigation_stays_in_range demo_searched [false; false; false; true; false]).
  vm_compute. split; discriminate.
Defined.

(** ** The delegated fuzzy matcher *)

Lemma fzf_search_run (w : world) (st : state) :
  fzf_search w st =
    match fzf w (str_join [NL] (files_of st)) (searchstr st) with
    | OK output =>
        Returns (length (heap st))
                (set_heap (heap st ++ [str_split NL (strip output)]) st)
    | Raise e => Raises e st
    end.
Proof.
  unfold fzf_search. rewrite bind_run, get_run, bind_run.
  by destruct (fzf w _ _).
Qed.

(** A launch failure leaves [search_files] before anything is assigned. *)
Lemma search_files_fzf_raise (w : world) (st : state) (e : exn) :
  fzf_match st = true → searchstr st ≠ [] →
  fzf w (str_join [NL] (files_of st)) (searchstr st) = Raise e →
  search_files w st = Raises e st.
Proof.
  intros Hm Hs He. unfold search_files.
  rewrite bind_run, get_run, bind_run.
  destruct (searchstr st) as [|c s] eqn:Es; [done|].
  rewrite Hm, bind_run, fzf_search_run, Es, He. done.
Qed.

(** When the matcher answers, [hits] is bound to a new list: the lines
    of the stripped output. *)
Lemma search_files_fzf_ok (w : world) (st : state) (output : str) :
  fzf_match st = true → searchstr st ≠ [] →
  fzf w (str_join [NL] (files_of st)) (searchstr st) = OK output →
  let l := str_split NL (strip output) in
  search_files w st =
    create_levels w 1
      (set_active (match l with [] => -1 | _ :: _ => 0 end)
         (set_hits (length (heap st)) (set_heap (heap st ++ [l]) st))).
Proof.
  intros Hm Hs Ho l. unfold search_files.
  rewrite bind_run, get_run, bind_run.
  destruct (searchstr st) as [|c s] eqn:Es; [done|].
  rewrite Hm, bind_run, fzf_search_run, Es, Ho, modify_run, bind_run, get_run, bind_run.
  fold l. set (st1 := set_hits _ _).
  assert (hits_of st1 = l) as ->.
  { subst st1. unfold hits_of, deref. simpl.
    rewrite lookup_app_r by lia. by rewrite Nat.sub_diag. }
  by destruct l.
Qed.

(** C2 (amended): in delegated fuzzy mode with a non-empty token, a
    matcher that cannot be launched is not handled: [search_files] raises
    the launch exception with every global, the Hit List included,
    unchanged, and the interactive loop ends with that exception, both
    at its first search and at a key that triggers a search; when the
    matcher runs and its output has a character that is not white space,
    the Hit List becomes the lines of the stripped output. *)
Theorem fzf_search_outcome (w : world) (st : state) :
  fzf_match st = true → searchstr st ≠ [] →
  let answer := fzf w (str_join [NL] (files_of st)) (searchstr st) in
  (∀ e, answer = Raise e →
     search_files w st = Raises e st
     ∧ (∀ keys, mainloop w keys st = Raises e st)
     ∧ (∀ ch keys st0, dispatch w ch st0 = Returns (true, false) st →
          mainloop_from w (ch :: keys) st0 = Raises e st))
  ∧ (∀ output, answer = OK output → strip output ≠ [] →
     hits_of (final (search_files w st)) = str_split NL (strip output)).
Proof.
  intros Hm Hs answer. split.
  - intros e He. pose proof (search_files_fzf_raise w st e Hm Hs He) as Hr.
    split; [done|]. split.
    + intros keys. unfold mainloop. by rewrite bind_run, Hr.
    + intros ch keys st0 Hd. simpl. unfold mainloop_body.
      by rewrite !bind_run, Hd, bind_run, Hr.
  - intros output Ho _. rewrite (search_files_fzf_ok w st output Hm Hs Ho).
    rewrite create_levels_final.
    set (st1 := set_active _ _).
    assert (hits_of st1 = str_split NL (strip output)) as Hh.
    { subst st1. unfold hits_of, deref. simpl.
      rewrite lookup_app_r by lia. by rewrite Nat.sub_diag. }
    by destruct (flatten _ (hits_of st1)).
Qed.

(** A world in which [fzf] runs and prints nothing. *)
Definition silent_world : world :=
  mkWorld (fun _ => None) (fun _ _ => OK []) (fun _ _ => Raise OSError) None None
          default_depth.

(** A world in which [fzf] prints two of the paths. *)
Definition fzf_world : world :=
  mkWorld (fun _ => None) (fun _ _ => OK (py "a/b/y.txt" ++ NL :: py "a/b/x.txt" ++ [NL]))
          (fun _ _ => Raise OSError) None None default_depth.

Definition fzf_state (tok : str) : state := set_fzf_match true (demo_state tok).

Lemma fzf_search_outcome_witness :
  let st := fzf_state (py "b") in
  let answer := fzf fzf_world (str_join [NL] (files_of st)) (searchstr st) in
  (∀ e, answer = Raise e →
     search_files fzf_world st = Raises e st
     ∧ (∀ keys, mainloop fzf_world keys st = Raises e st)
     ∧ (∀ ch keys st0, dispatch fzf_world ch st0 = Returns (true, false) st →
          mainloop_from fzf_world (ch :: keys) st0 = Raises e st))
  ∧ (∀ output, answer = OK output → strip output ≠ [] →
     hits_of (final (search_files fzf_world st)) = str_split NL (strip output)).
Proof.
  apply (fzf_search_outcome fzf_world (fzf_state (py "b"))).
  - reflexivity.
  - discriminate.
Defined.

Example fzf_search_lines :
  hits_of (final (search_files fzf_world (fzf_state (py "b"))))
  = [py "a/b/y.txt"; py "a/b/x.txt"].
Proof. vm_compute. reflexivity. Qed.

(** C2 as stated fails.  Without [fzf], typing [x] (key 120) in fuzzy
    mode ends the interactive loop with the launch exception; and when
    [fzf] runs and prints nothing, the Hit List is neither empty nor
    unchanged: it holds one empty path, with Active Index 0. *)
Lemma fzf_failure_counterexample :
  mainloop_from bare_world [120%Z] (fzf_state [])
  = Raises OSError (fzf_state (py "x"))
  ∧ hits_of (fzf_state (py "x")) = []
  ∧ hits_of (final (search_files silent_world (fzf_state (py "x")))) = [[]]
  ∧ active (final (search_files silent_world (fzf_state (py "x")))) = 0%Z.
Proof. vm_compute. repeat split. Qed.

(** ** posixpath.split and posixpath.join *)

#[local] Arguments N.eqb : simpl never.
#[local] Arguments path_split : simpl never.

Lemma rfind_succ_none (p : str) : SEP ∉ p → rfind_succ p = 0.
Proof.
  induction p as [|c p IH]; intros Hp; simpl; [done|].
  apply not_elem_of_cons in Hp as [Hc Hp]. rewrite IH by done.
  destruct (N.eqb_spec c SEP); congruence.
Qed.

Lemma rfind_succ_last (h r : str) :
  SEP ∉ r → rfind_succ (h ++ SEP :: r) = S (length h).
Proof.
  intros Hr. induction h as [|c h IH]; simpl.
  - by rewrite rfind_succ_none.
  - by rewrite IH.
Qed.

Lemma all_sep_app (a b : str) : all_sep (a ++ b) = all_sep a && all_sep b.
Proof. apply forallb_app. Qed.

Lemma lstrip_sep_split (s : str) :
  ∃ k, s = k ++ lstrip_sep s ∧ all_sep k = true.
Proof.
  induction s as [|c s (k & Hk & Hall)]; simpl.
  - by exists [].
  - destruct (N.eqb_spec c SEP) as [->|Hne].
    + exists (SEP :: k). split; [simpl; congruence | done].
    + by exists [].
Qed.

Lemma lstrip_sep_head (s : str) :
  lstrip_sep s = [] ∨ ∃ c s', lstrip_sep s = c :: s' ∧ c ≠ SEP.
Proof.
  induction s as [|c s IH]; simpl; [by left|].
  destruct (N.eqb_spec c SEP); [done|]. right. by exists c, s.
Qed.

Lemma all_sep_rev (s : str) : all_sep (rev s) = all_sep s.
Proof.
  induction s as [|c s IH]; simpl; [done|].
  rewrite all_sep_app, IH. simpl. rewrite andb_true_r. apply andb_comm.
Qed.

(** [rstrip] removes a run of separators at the end, ... *)
Lemma rstrip_sep_split (s : str) :
  ∃ k, s = rstrip_sep s ++ k ∧ all_sep k = true.
Proof.
  destruct (lstrip_sep_split (rev s)) as (k & Hk & Hall).
  exists (rev k). split; [|by rewrite all_sep_rev].
  unfold rstrip_sep. rewrite <- rev_app_distr, <- Hk. by rewrite rev_involutive.
Qed.

(** ... and what is left does not end in one. *)
Lemma rstrip_sep_last (s : str) :
  rstrip_sep s = [] ∨ ∃ a c, rstrip_sep s = a ++ [c] ∧ c ≠ SEP.
Proof.
  unfold rstrip_sep. destruct (lstrip_sep_head (rev s)) as [->|(c & s' & -> & Hc)].
  - by left.
  - right. exists (rev s'), c. done.
Qed.

Lemma rstrip_sep_snoc (h : str) : rstrip_sep (h ++ [SEP]) = rstrip_sep h.
Proof. unfold rstrip_sep. rewrite rev_app_distr. done. Qed.

Lemma rstrip_sep_id (a : str) (c : N) : c ≠ SEP → rstrip_sep (a ++ [c]) = a ++ [c].
Proof.
  intros Hc. unfold rstrip_sep. rewrite rev_app_distr. simpl.
  destruct (N.eqb_spec c SEP); [done|]. simpl. by rewrite rev_involutive.
Qed.

Lemma rstrip_sep_length (s : str) : length (rstrip_sep s) ≤ length s.
Proof.
  destruct (rstrip_sep_split s) as (k & Hk & _).
  rewrite Hk at 2. rewrite length_app. lia.
Qed.

Lemma rstrip_sep_not_all (s : str) : all_sep s = false → rstrip_sep s ≠ [].
Proof.
  intros Hs Hnil. destruct (rstrip_sep_split s) as (k & Hk & Hall).
  rewrite Hnil in Hk. simpl in Hk. congruence.
Qed.

(** A path without separator is all tail. *)
Lemma path_split_none (p : str) : SEP ∉ p → path_split p = ([], p).
Proof. intros Hp. unfold path_split. by rewrite rfind_succ_none. Qed.

(** A path is cut at its last separator; the head loses the separators
    it ends in, unless it consists of nothing else. *)
Lemma path_split_last (h r : str) :
  SEP ∉ r →
  path_split (h ++ SEP :: r) = (if all_sep h then h ++ [SEP] else rstrip_sep h, r).
Proof.
  intros Hr. unfold path_split. rewrite rfind_succ_last by done.
  replace (h ++ SEP :: r) with ((h ++ [SEP]) ++ r) by by rewrite <- app_assoc.
  replace (S (length h)) with (length (h ++ [SEP])) by (rewrite length_app; simpl; lia).
  rewrite take_app_length, drop_app_length.
  rewrite <- (rstrip_sep_snoc h).
  assert (all_sep (h ++ [SEP]) = all_sep h) as <-.
  { rewrite all_sep_app. simpl. by rewrite andb_true_r. }
  by destruct (h ++ [SEP]) eqn:E; [destruct h; discriminate|].
Qed.

(** Every path is of one of the two shapes. *)
Lemma path_shape (p : str) :
  SEP ∉ p ∨ ∃ h r, p = h ++ SEP :: r ∧ SEP ∉ r.
Proof.
  destruct (decide (SEP ∈ p)) as [Hin|Hnot]; [right | by left].
  by apply list_elem_of_split_r.
Qed.

(** ** path_splitter: where it returns and where it recurses for ever *)

(** [posixpath.isabs] *)
Definition isabs (p : str) : bool := startswith p [SEP].

Lemma isabs_cons (c : N) (p : str) : isabs (c :: p) = N.eqb SEP c.
Proof. unfold isabs. simpl. by destruct (N.eqb SEP c). Qed.

Lemma isabs_prefix (a b : str) : a ≠ [] → isabs (a ++ b) = isabs a.
Proof. destruct a; [done|]. intros _. simpl. by rewrite !isabs_cons. Qed.

Lemma all_sep_isabs (h : str) : h ≠ [] → all_sep h = true → isabs h = true.
Proof.
  destruct h as [|c h]; [done|]. intros _ H. apply andb_prop in H as [Hc _].
  by rewrite isabs_cons.
Qed.

(** The head of a relative path is relative and does not end in a
    separator; head, one separator and tail fit in the path; the tail
    has no separator; with an empty head the tail is the path. *)
Lemma path_split_relative (p t r : str) :
  isabs p = false → path_split p = (t, r) →
  isabs t = false
  ∧ (t = [] → r = p)
  ∧ (t ≠ [] → length t + S (length r) ≤ length p)
  ∧ (SEP ∉ r)
  ∧ (∀ a, t ≠ a ++ [SEP]).
Proof.
  intros Hrel Hsplit. destruct (path_shape p) as [Hp|(h & r' & -> & Hr)].
  - rewrite path_split_none in Hsplit by done. injection Hsplit as <- <-.
    repeat split; [done | done | by destruct a].
  - rewrite path_split_last in Hsplit by done.
    destruct h as [|c h].
    { simpl in Hrel. rewrite isabs_cons in Hrel. by rewrite N.eqb_refl in Hrel. }
    assert (all_sep (c :: h) = false) as Hall.
    { destruct (all_sep (c :: h)) eqn:E; [|done].
      apply all_sep_isabs in E; [|done]. rewrite isabs_prefix in Hrel by done.
      congruence. }
    rewrite Hall in Hsplit. injection Hsplit as <- <-.
    destruct (rstrip_sep_split (c :: h)) as (k & Hk & _).
    pose proof (rstrip_sep_not_all _ Hall) as Hne.
    repeat split; [| done | | done |].
    + rewrite isabs_prefix in Hrel by done. rewrite Hk in Hrel.
      by rewrite isabs_prefix in Hrel.
    + intros _. pose proof (rstrip_sep_length (c :: h)).
      rewrite length_app. simpl in *. lia.
    + intros a Ha. destruct (rstrip_sep_last (c :: h)) as [E|(a' & c' & E & Hc')];
        [done|]. rewrite E in Ha. apply app_inj_tail in Ha as [_ ->]. done.
Qed.

(** The head of an absolute path is absolute, hence not empty. *)
Lemma path_split_absolute (p t r : str) :
  isabs p = true → path_split p = (t, r) → isabs t = true.
Proof.
  intros Habs Hsplit. destruct (path_shape p) as [Hp|(h & r' & -> & Hr)].
  - destruct p as [|c p]; [done|]. rewrite isabs_cons in Habs.
    apply N.eqb_eq in Habs as <-. exfalso. apply Hp. left.
  - rewrite path_split_last in Hsplit by done.
    destruct (all_sep h) eqn:Hall; injection Hsplit as <- <-.
    + destruct h as [|c h]; [done|]. rewrite isabs_prefix by done.
      by apply all_sep_isabs.
    + destruct h as [|c h]; [done|]. rewrite isabs_prefix in Habs by done.
      destruct (rstrip_sep_split (c :: h)) as (k & Hk & _).
      pose proof (rstrip_sep_not_all _ Hall) as Hne.
      rewrite Hk in Habs. by rewrite isabs_prefix in Habs.
Qed.

Lemma path_splitter_fuel_S (n : nat) (p : str) :
  path_splitter_fuel (S n) p =
    let '(t, r) := path_split p in
    match t with
    | _ :: _ =>
        match path_splitter_fuel n t with
        | Some xx => Some (xx ++ [(t, r)])
        | None => None
        end
    | [] => match r with
            | _ :: _ => Some [([], r)]
            | [] => Some []
            end
    end.
Proof. reflexivity. Qed.

(** More fuel does not change a result. *)
Lemma path_splitter_fuel_mono (n m : nat) (p : str) (xx : list (str * str)) :
  path_splitter_fuel n p = Some xx → n ≤ m → path_splitter_fuel m p = Some xx.
Proof.
  revert m p xx. induction n as [|n IH]; intros m p xx Hn Hle; [done|].
  destruct m as [|m]; [lia|]. rewrite path_splitter_fuel_S in *.
  destruct (path_split p) as [t r]. destruct t as [|c t]; [done|].
  destruct (path_splitter_fuel n (c :: t)) as [yy|] eqn:E; [|done].
  by rewrite (IH m _ yy E) by lia.
Qed.

(** On an absolute path the recursion never ends. *)
Lemma path_splitter_fuel_absolute (n : nat) (p : str) :
  isabs p = true → path_splitter_fuel n p = None.
Proof.
  revert p. induction n as [|n IH]; intros p Habs; [done|].
  rewrite path_splitter_fuel_S.
  destruct (path_split p) as [t r] eqn:Hsplit.
  pose proof (path_split_absolute p t r Habs Hsplit) as Ht.
  destruct t as [|c t]; [done|]. by rewrite IH.
Qed.

(** On a relative path it ends within [length p + 1] calls. *)
Lemma path_splitter_fuel_relative (n : nat) (p : str) :
  isabs p = false → length p < n → is_Some (path_splitter_fuel n p).
Proof.
  revert p. induction n as [|n IH]; intros p Hrel Hlen; [lia|].
  rewrite path_splitter_fuel_S.
  destruct (path_split p) as [t r] eqn:Hsplit.
  destruct (path_split_relative p t r Hrel Hsplit) as (Ht & _ & Hlt & _ & _).
  destruct t as [|c t]; [by destruct r|].
  destruct (IH (c :: t)) as [xx ->]; [done | |done].
  specialize (Hlt ltac:(done)). simpl in *. lia.
Qed.

(** If the recursion does not end within [length p + 1] calls, it does
    not end at all. *)
Lemma path_splitter_diverges (p : str) :
  path_splitter_fuel (S (length p)) p = None →
  ∀ n, path_splitter_fuel n p = None.
Proof.
  intros Hnone n. destruct (isabs p) eqn:Habs.
  - by apply path_splitter_fuel_absolute.
  - destruct (path_splitter_fuel_relative (S (length p)) p Habs) as [xx Hxx]; [lia|].
    congruence.
Qed.

(** On an absolute path no recursion depth lets [path_splitter] return. *)
Lemma path_splitter_absolute (depth : nat) (p : str) :
  isabs p = true → path_splitter depth p = Raise RecursionError.
Proof. intros Habs. unfold path_splitter. by rewrite path_splitter_fuel_absolute. Qed.

(** [RecursionError] is all it raises. *)
Lemma path_splitter_raise (depth : nat) (p : str) (e : exn) :
  path_splitter depth p = Raise e → e = RecursionError.
Proof.
  unfold path_splitter. destruct (path_splitter_fuel depth p); [done|]. by intros [= <-].
Qed.

(** What the recursion of [path_splitter] computes when the depth
    suffices: [length p + 1] activations are enough whenever any number
    is ([path_splitter_diverges]).  It is the reference the results of
    [path_splitter] are stated against; the program calls
    [path_splitter], under the depth it has. *)
Definition split_all (p : str) : result (list (str * str)) :=
  path_splitter (S (length p)) p.

(** The recursion ends exactly on the relative paths. *)
Lemma split_all_returns (p : str) :
  isabs p = false ↔ ∃ xx, split_all p = OK xx.
Proof.
  unfold split_all, path_splitter. split.
  - intros Hrel.
    destruct (path_splitter_fuel_relative (S (length p)) p Hrel) as [xx ->]; [lia|].
    by exists xx.
  - intros [xx Hxx]. destruct (isabs p) eqn:Habs; [|done].
    by rewrite path_splitter_fuel_absolute in Hxx.
Qed.

Lemma split_all_absolute (p : str) :
  isabs p = true → split_all p = Raise RecursionError.
Proof. apply path_splitter_absolute. Qed.

(** It satisfies the equation of the source text. *)
Lemma split_all_eq (p : str) :
  split_all p =
    let '(t, r) := path_split p in
    match t with
    | _ :: _ => rbind (split_all t) (fun xx => OK (xx ++ [(t, r)]))
    | [] => match r with
            | _ :: _ => OK [([], r)]
            | [] => OK []
            end
    end.
Proof.
  destruct (path_split p) as [t r] eqn:Hsplit. destruct (isabs p) eqn:Habs.
  - rewrite split_all_absolute by done.
    pose proof (path_split_absolute p t r Habs Hsplit) as Ht.
    destruct t as [|c t]; [done|]. by rewrite split_all_absolute.
  - destruct (path_split_relative p t r Habs Hsplit) as (Ht & _ & Hlt & _ & _).
    unfold split_all, path_splitter at 1. rewrite path_splitter_fuel_S, Hsplit.
    destruct t as [|c t]; [by destruct r|].
    specialize (Hlt ltac:(done)).
    destruct (path_splitter_fuel_relative (S (length (c :: t))) (c :: t) Ht) as [xx Hxx];
      [lia|]. simpl length in Hlt.
    unfold path_splitter. rewrite Hxx.
    by rewrite (path_splitter_fuel_mono _ (length p) _ _ Hxx) by (simpl length; lia).
Qed.

(** Only the empty string has no segment. *)
Lemma split_all_nil (p : str) : split_all p = OK [] → p = [].
Proof.
  intros Hp. assert (isabs p = false) as Hrel by (apply split_all_returns; eauto).
  rewrite split_all_eq in Hp. destruct (path_split p) as [t r] eqn:Hsplit.
  destruct (path_split_relative p t r Hrel Hsplit) as (_ & Hnil & _).
  destruct t as [|c t].
  - rewrite <- (Hnil eq_refl). by destruct r.
  - destruct (split_all (c :: t)) as [xx|]; [|done].
    simpl in Hp. injection Hp as Hp. by destruct xx.
Qed.

(** What [path_splitter] returns does not depend on the depth ... *)
Lemma path_splitter_split_all (depth : nat) (p : str) (xx : list (str * str)) :
  path_splitter depth p = OK xx → split_all p = OK xx.
Proof.
  unfold split_all, path_splitter.
  destruct (path_splitter_fuel depth p) as [yy|] eqn:E; [|done]. intros [= ->].
  destruct (path_splitter_fuel (S (length p)) p) as [zz|] eqn:E'.
  - pose proof (path_splitter_fuel_mono _ (depth + S (length p)) _ _ E ltac:(lia)) as H1.
    pose proof (path_splitter_fuel_mono _ (depth + S (length p)) _ _ E' ltac:(lia)) as H2.
    congruence.
  - by rewrite (path_splitter_diverges p E' depth) in E.
Qed.

(** ... and it returns exactly when the depth covers one activation per
    pair of the result, and one at least. *)
Lemma path_splitter_exact (depth : nat) (p : str) (xx : list (str * str)) :
  split_all p = OK xx →
  path_splitter depth p =
    if decide (0 < depth ∧ length xx ≤ depth) then OK xx else Raise RecursionError.
Proof.
  revert p xx. induction depth as [|n IH]; intros p xx Hxx.
  { rewrite decide_False by lia. done. }
  assert (isabs p = false) as Hrel by (apply split_all_returns; eauto).
  rewrite split_all_eq in Hxx. unfold path_splitter. rewrite path_splitter_fuel_S.
  destruct (path_split p) as [t r] eqn:Hsplit.
  destruct (path_split_relative p t r Hrel Hsplit) as (Ht & _).
  destruct t as [|c t].
  - destruct r; injection Hxx as <-; rewrite decide_True by (simpl; lia); done.
  - destruct (split_all (c :: t)) as [yy|] eqn:Hyy; [|done].
    simpl in Hxx. injection Hxx as <-.
    assert (yy ≠ []) as Hne by (intros ->; by apply split_all_nil in Hyy).
    specialize (IH (c :: t) yy Hyy). unfold path_splitter in IH.
    rewrite length_app. simpl length.
    destruct (decide (0 < n ∧ length yy ≤ n)) as [Hd|Hd].
    + destruct (path_splitter_fuel n (c :: t)) as [zz|]; [|done].
      injection IH as ->. rewrite decide_True by lia. done.
    + destruct (path_splitter_fuel n (c :: t)) as [zz|]; [done|].
      rewrite decide_False; [done|]. destruct yy; [done|]. simpl in *. lia.
Qed.

(** A string has one more segment than separators. *)
Lemma str_split_length (sep : N) (s : str) :
  length (str_split sep s) = S (length (filter (fun c => c = sep) s)).
Proof.
  induction s as [|c s IH]; simpl; [done|].
  destruct (N.eqb_spec c sep) as [->|Hne].
  - rewrite filter_cons_True by done. simpl. by rewrite IH.
  - rewrite filter_cons_False by done. rewrite <- IH.
    pose proof (str_split_not_nil sep s). by destruct (str_split sep s).
Qed.

(** The head of a relative path has fewer segments than the path. *)
Lemma path_split_segments (p t r : str) :
  isabs p = false → path_split p = (t, r) → t ≠ [] →
  length (str_split SEP t) < length (str_split SEP p).
Proof.
  intros Hrel Hsplit Ht. destruct (path_shape p) as [Hp|(h & r' & -> & Hr)].
  - rewrite path_split_none in Hsplit by done. by injection Hsplit as <- <-.
  - rewrite path_split_last in Hsplit by done.
    destruct h as [|c h].
    { simpl in Hrel. rewrite isabs_cons in Hrel. by rewrite N.eqb_refl in Hrel. }
    assert (all_sep (c :: h) = false) as Hall.
    { destruct (all_sep (c :: h)) eqn:E; [|done].
      apply all_sep_isabs in E; [|done]. rewrite isabs_prefix in Hrel by done.
      congruence. }
    rewrite Hall in Hsplit. injection Hsplit as <- <-.
    destruct (rstrip_sep_split (c :: h)) as (k & Hk & _).
    set (t := rstrip_sep (c :: h)) in *.
    rewrite !str_split_length, Hk, !filter_app, !length_app.
    rewrite filter_cons_True by done. simpl. lia.
Qed.

(** [path_splitter] returns no more pairs than the path has segments. *)
Lemma split_all_length (n : nat) (p : str) (xx : list (str * str)) :
  length p < n → split_all p = OK xx → length xx ≤ length (str_split SEP p).
Proof.
  revert p xx. induction n as [|n IH]; intros p xx Hn Hxx; [lia|].
  assert (isabs p = false) as Hrel by (apply split_all_returns; eauto).
  assert (0 < length (str_split SEP p)) as Hpos by (rewrite str_split_length; lia).
  rewrite split_all_eq in Hxx. destruct (path_split p) as [t r] eqn:Hsplit.
  destruct (path_split_relative p t r Hrel Hsplit) as (Ht & _ & Hlen & _).
  destruct t as [|c t].
  - destruct r; injection Hxx as <-; simpl; lia.
  - destruct (split_all (c :: t)) as [yy|] eqn:Hyy; [|done].
    simpl in Hxx. injection Hxx as <-.
    specialize (Hlen ltac:(done)).
    pose proof (path_split_segments p (c :: t) r Hrel Hsplit ltac:(done)) as Hseg.
    assert (length (c :: t) < n) as Hn' by (simpl in *; lia).
    pose proof (IH (c :: t) yy Hn' Hyy) as Hyy'.
    rewrite length_app. simpl length. lia.
Qed.

(** [path_splitter] returns on [f] under the depth. *)
Definition splits (depth : nat) (f : str) : Prop :=
  ∃ path_tokens, path_splitter depth f = OK path_tokens.

#[export] Instance splits_dec (depth : nat) (f : str) : Decision (splits depth f).
Proof.
  unfold splits. destruct (path_splitter depth f) as [toks|e].
  - left. by exists toks.
  - right. by intros [toks ?].
Defined.

Lemma splits_absolute (depth : nat) (f : str) : isabs f = true → ¬ splits depth f.
Proof. intros Habs [toks Htoks]. by rewrite path_splitter_absolute in Htoks. Qed.

Lemma splits_relative (depth : nat) (f : str) : splits depth f → isabs f = false.
Proof.
  intros Hs. destruct (isabs f) eqn:Habs; [|done]. by apply splits_absolute in Hs.
Qed.

(** A relative path splits when the depth covers its segments. *)
Lemma splits_segments (depth : nat) (p : str) :
  isabs p = false → length (str_split SEP p) ≤ depth → splits depth p.
Proof.
  intros Hrel Hd. apply split_all_returns in Hrel as [xx Hxx].
  exists xx. rewrite (path_splitter_exact depth p xx Hxx).
  pose proof (split_all_length (S (length p)) p xx ltac:(lia) Hxx).
  assert (0 < length (str_split SEP p)) by (rewrite str_split_length; lia).
  rewrite decide_True by lia. done.
Qed.

(** ** path_splitter on the segments of a path *)

(** A segment name: not empty, no separator in it. *)
Definition is_name (s : str) : Prop := s ≠ [] ∧ SEP ∉ s.

(** [os.path.join] of a list of names, left to right. *)
Definition join_names (names : list str) : str := foldl path_join [] names.

(** The pairs [(parent, name)] of a list of segments: each segment with
    the join of the segments before it. *)
Definition segment_pairs (segs : list str) : list (str * str) :=
  imap (fun i name => (join_names (take i segs), name)) segs.

Lemma notin_isabs (b : str) : SEP ∉ b → isabs b = false.
Proof.
  destruct b as [|c b]; [done|]. intros Hb. rewrite isabs_cons.
  apply N.eqb_neq. intros E. apply Hb. rewrite E. left.
Qed.

Lemma path_join_nil_l (b : str) : SEP ∉ b → path_join [] b = b.
Proof.
  intros Hb. unfold path_join. fold (isabs b). by rewrite notin_isabs.
Qed.

Lemma endswith_snoc (a : str) (c : N) : endswith (a ++ [c]) [SEP] = N.eqb SEP c.
Proof.
  unfold endswith. rewrite rev_app_distr. simpl. by destruct (N.eqb SEP c).
Qed.

Lemma path_join_name (a b : str) (c : N) :
  c ≠ SEP → SEP ∉ b → path_join (a ++ [c]) b = (a ++ [c]) ++ SEP :: b.
Proof.
  intros Hc Hb. unfold path_join. fold (isabs b). rewrite notin_isabs by done.
  rewrite endswith_snoc. destruct (N.eqb_spec SEP c) as [E|_]; [congruence|].
  by destruct (a ++ [c]) eqn:E; [destruct a|].
Qed.

Lemma name_last (x : str) : is_name x → ∃ a c, x = a ++ [c] ∧ c ≠ SEP.
Proof.
  intros [Hne Hsep]. destruct x as [|c x _] using rev_ind; [done|].
  exists x, c. split; [done|]. intros E. apply Hsep. rewrite E.
  apply elem_of_app. right. left.
Qed.

Lemma str_join_snoc (sep : str) (l : list str) (x : str) :
  l ≠ [] → str_join sep (l ++ [x]) = str_join sep l ++ sep ++ x.
Proof.
  induction l as [|y l IH]; [done|]. intros _. destruct l as [|z l]; [done|].
  change (str_join sep ((y :: z :: l) ++ [x]))
    with (y ++ sep ++ str_join sep ((z :: l) ++ [x])).
  rewrite IH by done. change (str_join sep (y :: z :: l))
    with (y ++ sep ++ str_join sep (z :: l)).
  by rewrite <- !app_assoc.
Qed.

(** Joining names gives them separated by single separators; the result
    does not end in a separator. *)
Lemma join_names_str_join (names : list str) :
  Forall is_name names →
  join_names names = str_join [SEP] names
  ∧ (names ≠ [] → ∃ a c, join_names names = a ++ [c] ∧ c ≠ SEP).
Proof.
  induction names as [|x names IH] using rev_ind; intros Hn; [done|].
  apply Forall_app in Hn as [Hn Hx]. apply Forall_inv in Hx.
  destruct (IH Hn) as [Heq Hlast]. unfold join_names in *. rewrite foldl_snoc.
  destruct (name_last x Hx) as (a & c & -> & Hc). destruct Hx as [_ Hsep].
  destruct names as [|y names].
  - simpl. rewrite path_join_nil_l by done. split; [done|]. intros _. by exists a, c.
  - destruct Hlast as (a' & c' & Ha' & Hc'); [done|].
    rewrite Ha', path_join_name by done. split.
    + rewrite str_join_snoc by done. rewrite <- Heq, Ha'. by rewrite <- !app_assoc.
    + intros _. exists ((a' ++ [c']) ++ SEP :: a), c. by rewrite <- !app_assoc.
Qed.

Lemma segment_pairs_snoc (segs : list str) (s : str) :
  segment_pairs (segs ++ [s]) = segment_pairs segs ++ [(join_names segs, s)].
Proof.
  unfold segment_pairs. rewrite imap_app. f_equal.
  - apply imap_ext. intros i x Hi. apply lookup_lt_Some in Hi.
    by rewrite take_app_le by lia.
  - simpl. by rewrite Nat.add_0_r, take_app_length.
Qed.

(** On names joined by single separators and followed by a last segment
    (which may be empty if it is not the only one), [path_splitter]
    returns the segments with their parents. *)
Lemma split_all_names (segs : list str) (s : str) :
  Forall is_name segs → SEP ∉ s → (segs = [] → s ≠ []) →
  split_all (str_join [SEP] (segs ++ [s])) = OK (segment_pairs (segs ++ [s])).
Proof.
  revert s. induction segs as [|x segs IH] using rev_ind; intros s Hn Hs Hne.
  - simpl. rewrite split_all_eq, path_split_none by done.
    destruct s; [by destruct Hne | done].
  - pose proof Hn as Hn'. apply Forall_app in Hn' as [Hsegs Hx].
    apply Forall_inv in Hx.
    rewrite str_join_snoc by by destruct segs.
    destruct (join_names_str_join (segs ++ [x]) Hn) as [Heq Hlast].
    destruct Hlast as (a & c & Ha & Hc); [by destruct segs|].
    rewrite <- Heq, Ha. simpl.
    rewrite split_all_eq, path_split_last by done.
    assert (all_sep (a ++ [c]) = false) as ->.
    { rewrite all_sep_app. simpl. apply andb_false_iff. right.
      apply andb_false_iff. left. apply N.eqb_neq. congruence. }
    rewrite rstrip_sep_id by done.
    destruct (a ++ [c]) as [|d t] eqn:E; [by destruct a|].
    rewrite <- Ha, Heq.
    rewrite IH; [| done | by destruct Hx | intros _; by destruct Hx].
    simpl. rewrite (segment_pairs_snoc (segs ++ [x]) s). by rewrite Heq.
Qed.

(** The pairs of a path of names, whatever the depth. *)
Lemma split_all_segments (p : str) :
  p ≠ [] →
  let segs := str_split SEP p in
  Forall (fun s => s ≠ []) (removelast segs) →
  let pairs := segment_pairs segs in
  split_all p = OK pairs
  ∧ length pairs = length segs
  ∧ ∃ parent name, last pairs = Some (parent, name) ∧ path_join parent name = p.
Proof.
  intros Hp segs Hne pairs.
  assert (str_join [SEP] segs = p) as Hjoin by apply str_join_split.
  assert (∀ x, x ∈ segs → SEP ∉ x) as Hsep by (intros x; apply str_split_no_sep).
  destruct segs as [|s segs' _] using rev_ind.
  { by destruct (str_split_not_nil SEP p). }
  rewrite removelast_last in Hne.
  assert (Forall is_name segs') as Hn.
  { apply Forall_forall. intros x Hx. split.
    - by apply (proj1 (Forall_forall _ _) Hne).
    - apply Hsep, elem_of_app. by left. }
  assert (SEP ∉ s) as Hs by (apply Hsep, elem_of_app; right; left).
  assert (segs' = [] → s ≠ []) as Hs' by (intros ->; simpl in Hjoin; congruence).
  subst pairs. split; [|split].
  - rewrite <- Hjoin. by apply split_all_names.
  - apply length_imap.
  - rewrite segment_pairs_snoc. exists (join_names segs'), s. split; [apply last_snoc|].
    destruct (join_names_str_join segs' Hn) as [Heq Hlast]. rewrite <- Hjoin.
    destruct segs' as [|y segs'].
    + simpl. by apply path_join_nil_l.
    + destruct Hlast as (a & c & Ha & Hc); [done|].
      rewrite str_join_snoc by done. rewrite <- Heq, Ha.
      by rewrite path_join_name.
Qed.

(** C10 (amended): for every non-empty relative path in which no
    segment before the last is empty (no two separators in a row) and
    which has no more segments than the recursion depth left to the
    call, [path_splitter] returns, root first, one pair [(parent, name)]
    per segment of the path split on the separator, each parent being
    the join of the segments before it; there are as many pairs as
    segments; joining the last pair's parent and name gives the path
    back.  The recursion is one activation deep per segment: with more
    segments than the depth left, the call raises [RecursionError].
    [path_splitter] of the empty string, with room for one activation,
    is the empty list. *)
Theorem path_splitter_segments (depth : nat) (p : str) :
  p ≠ [] → isabs p = false →
  let segs := str_split SEP p in
  Forall (fun s => s ≠ []) (removelast segs) →
  let pairs := segment_pairs segs in
  (length segs ≤ depth →
     path_splitter depth p = OK pairs
     ∧ length pairs = length segs
     ∧ ∃ parent name, last pairs = Some (parent, name) ∧ path_join parent name = p)
  ∧ (depth < length segs → path_splitter depth p = Raise RecursionError)
  ∧ (0 < depth → path_splitter depth [] = OK []).
Proof.
  intros Hp _ segs Hne pairs.
  destruct (split_all_segments p Hp Hne) as (Hall & Hlen & Hlast).
  fold segs in Hall, Hlen, Hlast. fold pairs in Hall, Hlen, Hlast.
  assert (0 < length segs) as Hpos.
  { pose proof (str_split_not_nil SEP p). subst segs.
    destruct (str_split SEP p); [done | simpl; lia]. }
  rewrite (path_splitter_exact depth p pairs Hall), Hlen.
  split; [|split].
  - intros Hd. rewrite decide_True by lia. done.
  - intros Hd. rewrite decide_False by lia. done.
  - intros Hd. destruct depth; [lia | done].
Qed.

Lemma path_splitter_segments_witness :
  let p := py "a/b/x.txt" in
  let segs := str_split SEP p in
  let pairs := segment_pairs segs in
  (length segs ≤ 3 →
     path_splitter 3 p = OK pairs
     ∧ length pairs = length segs
     ∧ ∃ parent name, last pairs = Some (parent, name) ∧ path_join parent name = p)
  ∧ (3 < length segs → path_splitter 3 p = Raise RecursionError)
  ∧ (0 < 3 → path_splitter 3 [] = OK []).
Proof.
  apply (path_splitter_segments 3 (py "a/b/x.txt")).
  - discriminate.
  - reflexivity.
  - vm_compute. repeat constructor; discriminate.
Defined.

Example path_splitter_example :
  path_splitter default_depth (py "a/b/x.txt")
  = OK [([], py "a"); (py "a", py "b"); (py "a/b", py "x.txt")].
Proof. vm_compute. reflexivity. Qed.

(** Three segments need three activations. *)
Example path_splitter_too_deep :
  path_splitter 2 (py "a/b/x.txt") = Raise RecursionError
  ∧ path_splitter 3 (py "a/b/x.txt") = split_all (py "a/b/x.txt").
Proof. vm_compute. done. Qed.

(** ['a/' * 1000 + 'f'], a relative path of 1001 segments, under a depth
    of the order the default limit leaves. *)
Example path_splitter_thousand_segments :
  let p := concat (replicate 1000 (py "a/")) ++ py "f" in
  isabs p = false
  ∧ length (str_split SEP p) = 1001
  ∧ path_splitter default_depth p = Raise RecursionError.
Proof.
  intros p.
  assert (length (str_split SEP p) = 1001) as Hlen by (vm_compute; reflexivity).
  split; [vm_compute; reflexivity|]. split; [exact Hlen|].
  destruct (split_all_segments p) as (Hall & Hl & _).
  - subst p. discriminate.
  - apply (bool_decide_unpack _). vm_compute. reflexivity.
  - rewrite (path_splitter_exact _ _ _ Hall), Hl, Hlen.
    rewrite decide_False; [done|]. unfold default_depth. lia.
Qed.

(** C10 as stated fails on a relative path with two separators in a
    row, however much recursion depth there is: [a//b] splits on the
    separator into three segments, but [path_splitter] returns two
    pairs, and joining the last pair gives [a/b], not the path. *)
Lemma path_splitter_double_sep_counterexample :
  isabs (py "a//b") = false
  ∧ str_split SEP (py "a//b") = [py "a"; []; py "b"]
  ∧ path_splitter default_depth (py "a//b") = OK [([], py "a"); (py "a", py "b")]
  ∧ path_join (py "a") (py "b") = py "a/b"
  ∧ py "a/b" ≠ py "a//b".
Proof. vm_compute. repeat split. discriminate. Qed.

(** ** find_files: the path indexer *)

(** [files += ps] on the globals. *)
Definition extend (ps : list str) (st : state) : state :=
  set_heap (<[files st := files_of st ++ ps]> (heap st)) st.

(** The paths one [os.walk] contributes. *)
Definition paths_of_walk (triples : list (str * list str * list str)) : list str :=
  flat_map (fun '(r, dirs, f) =>
              map (path_join r) (filter (fun x => negb (mem x skipfiles)) f))
           triples.

(** The paths found under one root. *)
Definition root_paths (w : world) (root : str) : list str :=
  match fs w root with
  | Some t => paths_of_walk (walk root t)
  | None => []
  end.

Lemma extend_nil (st : state) : extend [] st = st.
Proof.
  unfold extend. rewrite app_nil_r. unfold files_of, deref.
  destruct (heap st !! files st) as [v|] eqn:E; simpl.
  - by rewrite list_insert_id, set_heap_id.
  - apply lookup_ge_None in E. by rewrite list_insert_ge, set_heap_id.
Qed.

Lemma extend_extend (ps qs : list str) (st : state) :
  extend qs (extend ps st) = extend (ps ++ qs) st.
Proof.
  unfold extend, files_of, deref. simpl.
  destruct (decide (files st < length (heap st))) as [Hlt|Hge].
  - rewrite list_lookup_insert_eq by done. simpl.
    by rewrite list_insert_insert_eq, app_assoc.
  - by rewrite !list_insert_ge by (rewrite ?length_insert; lia).
Qed.

Lemma walk_loop_run (triples : list (str * list str * list str)) (st : state) :
  for_ triples (fun '(r, dirs, f) =>
    st ← get;
    obj_update (files st) (fun l =>
      l ++ map (path_join r) (filter (fun x => negb (mem x skipfiles)) f))) st
  = Returns tt (extend (paths_of_walk triples) st).
Proof.
  revert st. induction triples as [|[[r dirs] f] triples IH]; intros st.
  - simpl. by rewrite extend_nil.
  - cbn [for_ paths_of_walk flat_map].
    rewrite bind_run, bind_run, get_run, obj_update_run, IH.
    by rewrite <- extend_extend.
Qed.

(** The loop over the roots when every root is a directory: it returns,
    and [files] has grown by the paths found, root after root. *)
Lemma root_loop_all_dirs (w : world) (rs : list str) (st : state) :
  Forall (fun root => is_Some (fs w root)) rs →
  for_ rs (fun root =>
    match fs w root with
    | None =>
        modify (fun st => set_stderr (stderr st ++ [not_found root]) st);;
        raise (SystemExit 1)
    | Some t =>
        for_ (walk root t) (fun '(r, dirs, f) =>
          st ← get;
          obj_update (files st) (fun l =>
            l ++ map (path_join r) (filter (fun x => negb (mem x skipfiles)) f)))
    end) st
  = Returns tt (extend (flat_map (root_paths w) rs) st).
Proof.
  revert st. induction rs as [|root rs IH]; intros st Hall.
  - simpl. by rewrite extend_nil.
  - apply Forall_cons in Hall as [[t Ht] Hall].
    cbn [for_ flat_map]. rewrite bind_run. unfold root_paths at 1. rewrite Ht.
    rewrite walk_loop_run, IH by done. by rewrite extend_extend.
Qed.

(** The loop over the roots when one of them is not a directory: the
    roots before it are indexed, the message is written, and
    [SystemExit(1)] is raised. *)
Lemma root_loop_bad (w : world) (good rest : list str) (bad : str) (st : state) :
  Forall (fun root => is_Some (fs w root)) good → fs w bad = None →
  for_ (good ++ bad :: rest) (fun root =>
    match fs w root with
    | None =>
        modify (fun st => set_stderr (stderr st ++ [not_found root]) st);;
        raise (SystemExit 1)
    | Some t =>
        for_ (walk root t) (fun '(r, dirs, f) =>
          st ← get;
          obj_update (files st) (fun l =>
            l ++ map (path_join r) (filter (fun x => negb (mem x skipfiles)) f)))
    end) st
  = Raises (SystemExit 1)
      (set_stderr (stderr st ++ [not_found bad])
         (extend (flat_map (root_paths w) good) st)).
Proof.
  revert st. induction good as [|root good IH]; intros st Hall Hbad.
  - simpl. rewrite bind_run, Hbad, bind_run, modify_run, raise_run.
    by rewrite extend_nil.
  - apply Forall_cons in Hall as [[t Ht] Hall].
    cbn [app for_ flat_map]. rewrite bind_run. unfold root_paths at 1. rewrite Ht.
    rewrite walk_loop_run, IH by done. by rewrite extend_extend.
Qed.

(** The first root that is not a directory, if there is one. *)
Lemma first_bad_root (w : world) (rs : list str) :
  Forall (fun root => is_Some (fs w root)) rs
  ∨ ∃ good bad rest, rs = good ++ bad :: rest
      ∧ Forall (fun root => is_Some (fs w root)) good ∧ fs w bad = None.
Proof.
  induction rs as [|root rs [IH|(good & bad & rest & -> & Hg & Hb)]].
  - by left.
  - destruct (fs w root) as [t|] eqn:E.
    + left. constructor; [by rewrite E|done].
    + right. by exists [], root, rs.
  - destruct (fs w root) as [t|] eqn:E.
    + right. exists (root :: good), bad, rest.
      split; [done|]. split; [|done]. constructor; [by rewrite E|done].
    + right. by exists [], root, (good ++ bad :: rest).
Qed.

(** With every root a directory, [find_files] indexes, binds [hits] to
    [files] and goes on to the flattener; nothing is written to
    [stderr]. *)
Lemma find_files_all_dirs (w : world) (spare : nat) (st : state) :
  Forall (fun root => is_Some (fs w root)) (roots st) →
  find_files w spare st =
    create_levels w spare
      (set_hits (files st) (extend (flat_map (root_paths w) (roots st)) st)).
Proof.
  intros Hall. unfold find_files.
  rewrite bind_run, get_run, bind_run.
  rewrite (root_loop_all_dirs w (roots st) st Hall).
  by rewrite bind_run, get_run, bind_run, modify_run.
Qed.

(** With a root that is not a directory, [find_files] writes the
    message for the first such root and raises [SystemExit(1)]; no
    global but the path list and [stderr] has changed. *)
Lemma find_files_bad_root (w : world) (spare : nat) (st : state) :
  ¬ Forall (fun root => is_Some (fs w root)) (roots st) →
  ∃ good bad rest,
    roots st = good ++ bad :: rest ∧ fs w bad = None
    ∧ find_files w spare st =
        Raises (SystemExit 1)
          (set_stderr (stderr st ++ [not_found bad])
             (extend (flat_map (root_paths w) good) st)).
Proof.
  intros Hnot. destruct (first_bad_root w (roots st))
    as [Hall|(good & bad & rest & Hroots & Hg & Hb)]; [done|].
  exists good, bad, rest. split; [done|]. split; [done|].
  unfold find_files. rewrite bind_run, get_run, bind_run, Hroots.
  by rewrite (root_loop_bad w good rest bad st Hg Hb).
Qed.

(** ** create_levels: one node per path, every line that visits it *)

(** A level entry [(i, line, parent, name, fullpath)] of the inner loop. *)
Abbreviation entry := (nat * Z * str * str * str)%type.

Definition entry_path (e : entry) : str := e.2.
Definition entry_line (e : entry) : Z := e.1.1.1.2.

(** The level entries of a hit list, in the order the loops meet them
    when [path_splitter] returns on every hit: hit after hit from line
    [ln], each hit root first. *)
Fixpoint entries_from (ln : Z) (hits : list str) : list entry :=
  match hits with
  | [] => []
  | f :: hits' =>
      match split_all f with
      | OK path_tokens => hit_levels ln path_tokens
      | Raise _ => []
      end ++ entries_from (ln + 1) hits'
  end.

(** The entries that meet their full path for the first time. *)
Fixpoint first_seen (es : list entry) : list entry :=
  match es with
  | [] => []
  | e :: es' => e :: filter (fun e' => entry_path e' ≠ entry_path e) (first_seen es')
  end.

(** The lines of the entries at full path [q], in loop order. *)
Definition lines_at (q : str) (es : list entry) : list Z :=
  map entry_line (filter (fun e => entry_path e = q) es).

(** The Display Node of an entry, given all entries. *)
Definition node_of (es : list entry) (e : entry) : node :=
  (e.1.1.1.1, lines_at (entry_path e) es, e.1.2).

(** What the loops have built once they have met the entries [es]. *)
Definition built (es : list entry) (s : flat) : Prop :=
  used s = list_to_set (map entry_path es)
  ∧ (∀ q, cache s !! q =
          match lines_at q es with
          | [] => None
          | _ :: _ => Some (lines_at q es)
          end)
  ∧ curr_levels s = map (fun e => (e.1.1.1.1, entry_line e, e.1.2, entry_path e))
                        (first_seen es).

Lemma lines_at_app (q : str) (es es' : list entry) :
  lines_at q (es ++ es') = lines_at q es ++ lines_at q es'.
Proof. unfold lines_at. by rewrite filter_app, map_app. Qed.

Lemma lines_at_nil_iff (q : str) (es : list entry) :
  lines_at q es = [] ↔ q ∉ map entry_path es.
Proof.
  unfold lines_at. induction es as [|e es IH]; simpl.
  - split; [intros _; apply not_elem_of_nil | done].
  - rewrite not_elem_of_cons. destruct (decide (entry_path e = q)) as [Heq|Hne].
    + rewrite filter_cons_True by done. simpl. split; [done | intros [? _]; congruence].
    + rewrite filter_cons_False by done. rewrite IH. split; [|tauto].
      intros ?. split; [by intros -> | done].
Qed.

Lemma first_seen_paths (es : list entry) (e : entry) :
  e ∈ first_seen es → e ∈ es.
Proof.
  revert e. induction es as [|e0 es IH]; intros e; simpl; [done|].
  rewrite !elem_of_cons. intros [->|He]; [by left|].
  apply list_elem_of_filter in He as [_ He]. right. by apply IH.
Qed.

Lemma first_seen_snoc (es : list entry) (e : entry) :
  first_seen (es ++ [e]) =
    if decide (entry_path e ∈ map entry_path es) then first_seen es
    else first_seen es ++ [e].
Proof.
  induction es as [|e0 es IH]; cbn [app first_seen map].
  - rewrite decide_False by apply not_elem_of_nil. done.
  - rewrite IH. destruct (decide (entry_path e ∈ map entry_path es)) as [Hin|Hnin].
    + by rewrite decide_True by by right.
    + destruct (decide (entry_path e = entry_path e0)) as [Heq|Hne].
      * rewrite decide_True by (rewrite Heq; left).
        rewrite filter_app, filter_cons_False by naive_solver.
        by rewrite filter_nil, app_nil_r.
      * rewrite decide_False by (rewrite not_elem_of_cons; naive_solver).
        rewrite filter_app, filter_cons_True by done. by rewrite filter_nil.
Qed.

Lemma built_flat0 : built [] flat0.
Proof. split; [done|]. split; [|done]. intros q. apply lookup_empty. Qed.

(** One turn of [for l in levels]: no [KeyError], and the entry is
    accounted for. *)
Lemma add_level_built (es : list entry) (s : flat) (e : entry) :
  built es s →
  ∃ s', add_level s e = OK s' ∧ built (es ++ [e]) s' ∧ line s' = line s.
Proof.
  intros (Hused & Hcache & Hcurr).
  destruct e as [[[[level xline] parent] name] q0]. unfold add_level.
  assert (q0 ∈ used s ↔ q0 ∈ map entry_path es) as Hin
      by (rewrite Hused; apply elem_of_list_to_set).
  assert (∀ q, lines_at q (es ++ [(level, xline, parent, name, q0)]) =
               if decide (q = q0) then lines_at q es ++ [xline] else lines_at q es)
    as Hsnoc.
  { intros q. rewrite lines_at_app. unfold lines_at at 2. case_decide as Hq.
    - by rewrite filter_cons_True by (by rewrite Hq).
    - rewrite filter_cons_False by (simpl; congruence). by rewrite app_nil_r. }
  destruct (decide (q0 ∈ used s)) as [Hq|Hq].
  - pose proof (Hcache q0) as Hq0.
    destruct (lines_at q0 es) as [|l0 ls] eqn:El.
    { apply lines_at_nil_iff in El. by apply Hin in Hq. }
    rewrite Hq0. eexists. split; [done|]. split; [|done].
    split; [|split]; simpl.
    + rewrite map_app, list_to_set_app_L, <- Hused. simpl.
      rewrite union_empty_r_L, union_comm_L. symmetry. apply subseteq_union_1_L.
      by apply singleton_subseteq_l.
    + intros q. rewrite Hsnoc. destruct (decide (q = q0)) as [->|Hne].
      * by rewrite lookup_insert_eq, El.
      * rewrite lookup_insert_ne by done. by rewrite Hcache.
    + rewrite first_seen_snoc, decide_True by (by apply Hin). done.
  - eexists. split; [done|]. split; [|done].
    assert (lines_at q0 es = []) as El by (apply lines_at_nil_iff; by rewrite <- Hin).
    split; [|split]; simpl.
    + rewrite map_app, list_to_set_app_L, <- Hused. simpl.
      rewrite union_empty_r_L. apply union_comm_L.
    + intros q. rewrite Hsnoc. destruct (decide (q = q0)) as [->|Hne].
      * by rewrite lookup_insert_eq, El.
      * rewrite lookup_insert_ne by done. by rewrite Hcache.
    + rewrite first_seen_snoc, decide_False by (by rewrite <- Hin).
      rewrite map_app, Hcurr. done.
Qed.

Lemma add_levels_built (es es' : list entry) (s : flat) :
  built es s →
  ∃ s', for_each add_level es' s = OK s' ∧ built (es ++ es') s' ∧ line s' = line s.
Proof.
  revert es s. induction es' as [|e es' IH]; intros es s Hb.
  - exists s. by rewrite app_nil_r.
  - destruct (add_level_built es s e Hb) as (s1 & H1 & Hb1 & Hl1).
    destruct (IH _ _ Hb1) as (s2 & H2 & Hb2 & Hl2).
    exists s2. simpl. rewrite H1. simpl. rewrite <- app_assoc in Hb2.
    split; [done|]. split; [done | congruence].
Qed.

(** The loop over the hits: it returns when [path_splitter] returns on
    every hit ... *)
Lemma add_hits_built (depth : nat) (es : list entry) (hits : list str) (s : flat) :
  built es s → Forall (splits depth) hits →
  ∃ s', for_each (add_hit depth) hits s = OK s'
        ∧ built (es ++ entries_from (line s) hits) s'.
Proof.
  revert es s. induction hits as [|f hits IH]; intros es s Hb Hall.
  - exists s. simpl. by rewrite app_nil_r.
  - apply Forall_cons in Hall as [[toks Htoks] Hall].
    cbn [for_each entries_from]. unfold add_hit at 1. rewrite Htoks. cbn [rbind].
    rewrite (path_splitter_split_all depth f toks Htoks).
    set (s0 := mkFlat (line s + 1) (used s) (cache s) (curr_levels s)).
    assert (built es s0) as Hb0 by done.
    destruct (add_levels_built es (hit_levels (line s) toks) s0 Hb0)
      as (s1 & H1 & Hb1 & Hl1).
    rewrite H1. cbn [rbind].
    destruct (IH _ _ Hb1 Hall) as (s2 & H2 & Hb2).
    exists s2. split; [done|]. rewrite Hl1 in Hb2. simpl in Hb2.
    by rewrite <- app_assoc in Hb2.
Qed.

(** ... and raises [RecursionError] when it raises on one of them. *)
Lemma add_hits_raise (depth : nat) (es : list entry) (hits : list str) (s : flat) :
  built es s → Exists (fun f => ¬ splits depth f) hits →
  for_each (add_hit depth) hits s = Raise RecursionError.
Proof.
  revert es s. induction hits as [|f hits IH]; intros es s Hb Hex.
  { by apply Exists_nil in Hex. }
  cbn [for_each]. unfold add_hit at 1.
  destruct (path_splitter depth f) as [toks|e] eqn:Htoks.
  - apply Exists_cons in Hex as [Hex|Hex]; [destruct Hex; by exists toks|].
    cbn [rbind].
    set (s0 := mkFlat (line s + 1) (used s) (cache s) (curr_levels s)).
    assert (built es s0) as Hb0 by done.
    destruct (add_levels_built es (hit_levels (line s) toks) s0 Hb0)
      as (s1 & H1 & Hb1 & Hl1).
    rewrite H1. cbn [rbind]. by apply (IH _ _ Hb1).
  - by apply path_splitter_raise in Htoks as ->.
Qed.

Lemma splits_or_not (depth : nat) (hits : list str) :
  Forall (splits depth) hits ∨ Exists (fun f => ¬ splits depth f) hits.
Proof.
  induction hits as [|f hits [IH|IH]]; [by left | |].
  - destruct (decide (splits depth f)); [left; by constructor | right; by left].
  - right. by right.
Qed.

(** The last loop finds every line list it looks up. *)
Lemma emit_levels_run (es : list entry) (cache : gmap str (list Z))
    (sub : list entry) (out : list node) :
  (∀ q, cache !! q = match lines_at q es with
                     | [] => None
                     | _ :: _ => Some (lines_at q es)
                     end) →
  (∀ e, e ∈ sub → e ∈ es) →
  for_each (emit_level cache)
           (map (fun e => (e.1.1.1.1, entry_line e, e.1.2, entry_path e)) sub) out
  = OK (out ++ map (node_of es) sub).
Proof.
  intros Hcache. revert out. induction sub as [|e sub IH]; intros out Hsub.
  - simpl. by rewrite app_nil_r.
  - cbn [map for_each]. unfold emit_level at 1. rewrite Hcache.
    destruct (lines_at (entry_path e) es) as [|l0 ls] eqn:El.
    { apply lines_at_nil_iff in El. exfalso. apply El.
      apply list_elem_of_fmap. exists e. split; [done|]. apply Hsub. left. }
    cbn [rbind]. rewrite IH by (intros e' He'; apply Hsub; by right).
    rewrite <- app_assoc. unfold node_of at 2. by rewrite El.
Qed.

(** The flattener where [path_splitter] returns on every hit: one
    Display Node for each full path met, in the order the paths are
    first met, with the level and name of the entry that met it first
    and the lines of all entries at that path in loop order. *)
Lemma flatten_returns (depth : nat) (hits : list str) :
  Forall (splits depth) hits →
  let es := entries_from 0 hits in
  flatten depth hits = OK (map (node_of es) (first_seen es)).
Proof.
  intros Hall es. unfold flatten.
  destruct (add_hits_built depth [] hits flat0 built_flat0 Hall) as (s & Hs & Hb).
  rewrite Hs. cbn [rbind]. simpl in Hb. fold es in Hb.
  destruct Hb as (_ & Hcache & Hcurr). rewrite Hcurr.
  rewrite (emit_levels_run es); [done | done | apply first_seen_paths].
Qed.

(** The flattener raises [RecursionError] when [path_splitter] does on
    some hit ... *)
Lemma flatten_raises (depth : nat) (hits : list str) :
  Exists (fun f => ¬ splits depth f) hits → flatten depth hits = Raise RecursionError.
Proof.
  intros Hex. unfold flatten.
  by rewrite (add_hits_raise depth [] hits flat0 built_flat0 Hex).
Qed.

(** ... as it does, whatever the depth, on an absolute path. *)
Lemma flatten_absolute (depth : nat) (hits : list str) :
  Exists (fun f => isabs f = true) hits → flatten depth hits = Raise RecursionError.
Proof.
  intros Habs. apply flatten_raises.
  eapply Exists_impl; [exact Habs|]. intros f. apply splits_absolute.
Qed.

(** ** The flattener in terms of hits *)

(** The cumulative full paths of the segments of one hit, root first. *)
Definition hit_paths (f : str) : list str :=
  match split_all f with
  | OK path_tokens => map (fun x => path_join x.1 x.2) path_tokens
  | Raise _ => []
  end.

(** The lines of the hits that pass through [q]: from line [ln], in hit
    order, one entry per hit. *)
Fixpoint lines_through (q : str) (ln : Z) (hits : list str) : list Z :=
  match hits with
  | [] => []
  | f :: hits' =>
      (if decide (q ∈ hit_paths f) then [ln] else []) ++ lines_through q (ln + 1) hits'
  end.

Lemma path_join_plain (t r : str) :
  t ≠ [] → (∀ a, t ≠ a ++ [SEP]) → SEP ∉ r → path_join t r = t ++ SEP :: r.
Proof.
  intros Ht Hend Hr. destruct t as [|c t _] using rev_ind; [done|].
  apply path_join_name; [|done]. intros ->. by apply (Hend t).
Qed.

(** The full paths of one hit grow in length, so no two are equal. *)
Lemma split_all_paths (n : nat) (p : str) (toks : list (str * str)) :
  length p < n → isabs p = false → split_all p = OK toks →
  Forall (fun x => length (path_join x.1 x.2) ≤ length p) toks
  ∧ NoDup (map (fun x => path_join x.1 x.2) toks).
Proof.
  revert p toks. induction n as [|n IH]; intros p toks Hn Hrel Htoks; [lia|].
  rewrite split_all_eq in Htoks.
  destruct (path_split p) as [t r] eqn:Hsplit.
  destruct (path_split_relative p t r Hrel Hsplit) as (Ht & Hnil & Hlen & Hr & Hend).
  destruct t as [|c t].
  - pose proof (Hnil eq_refl) as Hp. subst p.
    destruct r as [|d r]; injection Htoks as <-.
    + split; constructor.
    + split.
      * constructor; [|constructor]. cbn [fst snd].
        by rewrite path_join_nil_l by done.
      * cbn [map]. constructor; [apply not_elem_of_nil | constructor].
  - specialize (Hlen ltac:(done)).
    destruct (split_all (c :: t)) as [xx|] eqn:Hxx; [|done].
    injection Htoks as <-.
    destruct (IH (c :: t) xx) as [Hle Hnd]; [lia | done | done |].
    assert (path_join (c :: t) r = (c :: t) ++ SEP :: r) as Hj
        by by apply path_join_plain.
    split.
    + apply Forall_app. split.
      * eapply Forall_impl; [exact Hle|]. simpl. intros x Hx. simpl in Hlen. lia.
      * constructor; [|constructor]. cbn [fst snd]. rewrite Hj, length_app.
        simpl in *. lia.
    + rewrite map_app. apply NoDup_app. split; [done|]. split.
      * intros q Hq Hq'. cbn [map fst snd] in Hq'.
        apply list_elem_of_singleton in Hq'.
        apply list_elem_of_fmap in Hq as (x & -> & Hx).
        pose proof (proj1 (Forall_forall _ _) Hle x Hx) as Hlx. simpl in Hlx.
        rewrite Hq', Hj, length_app in Hlx. simpl in Hlx. lia.
      * repeat constructor. apply not_elem_of_nil.
Qed.

Lemma hit_paths_NoDup (f : str) : NoDup (hit_paths f).
Proof.
  unfold hit_paths. destruct (split_all f) as [toks|] eqn:E; [|constructor].
  assert (isabs f = false) as Hrel by (apply split_all_returns; eauto).
  destruct (split_all_paths (S (length f)) f toks) as [_ H]; [lia | done | done | done].
Qed.

Lemma hit_levels_paths (ln : Z) (toks : list (str * str)) :
  map entry_path (hit_levels ln toks) = map (fun x => path_join x.1 x.2) toks.
Proof.
  unfold hit_levels. change map with (@fmap list _) at 1. rewrite fmap_imap.
  rewrite <- imap_const. by apply imap_ext.
Qed.

Lemma hit_levels_lines (ln : Z) (toks : list (str * str)) (e : entry) :
  e ∈ hit_levels ln toks → entry_line e = ln.
Proof.
  unfold hit_levels. intros He.
  apply elem_of_lookup_imap_1 in He as (i & x & -> & _). done.
Qed.

(** In a list of entries with distinct paths and one line, the lines
    at [q] are that line, once, if [q] is among the paths. *)
Lemma lines_at_NoDup (q : str) (ln : Z) (es : list entry) :
  NoDup (map entry_path es) → (∀ e, e ∈ es → entry_line e = ln) →
  lines_at q es = if decide (q ∈ map entry_path es) then [ln] else [].
Proof.
  induction es as [|e es IH]; intros Hnd Hln.
  - by rewrite decide_False by apply not_elem_of_nil.
  - cbn [map] in *. apply NoDup_cons in Hnd as [Hnot Hnd].
    assert (∀ e', e' ∈ es → entry_line e' = ln) as Hln'
        by (intros e' He'; apply Hln; by right).
    change (e :: es) with ([e] ++ es). rewrite lines_at_app, IH by done.
    unfold lines_at. destruct (decide (q = entry_path e)) as [->|Hne].
    + rewrite filter_cons_True by done.
      rewrite (decide_False (P := entry_path e ∈ map entry_path es)) by done.
      rewrite (decide_True (P := entry_path e ∈ entry_path e :: map entry_path es))
        by left.
      simpl. by rewrite Hln by left.
    + rewrite filter_cons_False by congruence.
      destruct (decide (q ∈ map entry_path es)) as [Hin|Hnin].
      * by rewrite decide_True by by right.
      * by rewrite decide_False by (rewrite not_elem_of_cons; done).
Qed.

(** The lines recorded at a full path are the lines of the hits that
    pass through it, in hit order, one entry per hit. *)
Lemma lines_at_entries (q : str) (ln : Z) (hits : list str) :
  lines_at q (entries_from ln hits) = lines_through q ln hits.
Proof.
  revert ln. induction hits as [|f hits IH]; intros ln; [done|].
  cbn [entries_from lines_through]. rewrite lines_at_app, IH. f_equal.
  pose proof (hit_paths_NoDup f) as Hnd. unfold hit_paths in *.
  destruct (split_all f) as [toks|]; [|done].
  rewrite <- (hit_levels_paths ln) in *.
  apply lines_at_NoDup; [done|]. apply hit_levels_lines.
Qed.

Lemma entries_from_paths (q : str) (ln : Z) (hits : list str) :
  q ∈ map entry_path (entries_from ln hits) ↔ ∃ f, f ∈ hits ∧ q ∈ hit_paths f.
Proof.
  revert ln. induction hits as [|f hits IH]; intros ln.
  - simpl. split; [by intros ?%elem_of_nil | by intros (f & ?%elem_of_nil & _)].
  - cbn [entries_from]. rewrite map_app, elem_of_app, IH.
    assert (map entry_path
              match split_all f with
              | OK path_tokens => hit_levels ln path_tokens
              | Raise _ => []
              end = hit_paths f) as ->.
    { unfold hit_paths. destruct (split_all f); [apply hit_levels_paths | done]. }
    split.
    + intros [Hq|(g & Hg & Hq)]; [exists f; split; [left | done]|].
      exists g. split; [by right | done].
    + intros (g & Hg & Hq). apply elem_of_cons in Hg as [->|Hg]; [by left|].
      right. by exists g.
Qed.

Lemma first_seen_NoDup (es : list entry) : NoDup (map entry_path (first_seen es)).
Proof.
  induction es as [|e es IH]; cbn [first_seen map]; constructor.
  - intros Hin. apply list_elem_of_fmap in Hin as (e' & He' & Hin).
    apply list_elem_of_filter in Hin as [Hne _]. congruence.
  - induction (first_seen es) as [|e' l IHl]; [constructor|].
    cbn [map] in IH. apply NoDup_cons in IH as [Hnot Hnd].
    destruct (decide (entry_path e' ≠ entry_path e)).
    + rewrite filter_cons_True by done. cbn [map]. constructor; [|by apply IHl].
      intros Hin. apply Hnot. apply list_elem_of_fmap in Hin as (x & Hx & Hin).
      apply list_elem_of_filter in Hin as [_ Hin].
      apply list_elem_of_fmap. by exists x.
    + rewrite filter_cons_False by done. by apply IHl.
Qed.

Lemma first_seen_elem_of (es : list entry) (q : str) :
  q ∈ map entry_path (first_seen es) ↔ q ∈ map entry_path es.
Proof.
  induction es as [|e es IH]; [done|]. cbn [first_seen map].
  rewrite !elem_of_cons, <- IH. split; [|intros [->|Hq]].
  - intros [->|Hq]; [by left|]. right.
    apply list_elem_of_fmap in Hq as (x & -> & Hx).
    apply list_elem_of_filter in Hx as [_ Hx]. apply list_elem_of_fmap. by exists x.
  - by left.
  - destruct (decide (q = entry_path e)) as [->|Hne]; [by left|]. right.
    apply list_elem_of_fmap in Hq as (x & -> & Hx).
    apply list_elem_of_fmap. exists x. split; [done|].
    apply list_elem_of_filter. split; [done | done].
Qed.

(** On a hit list of relative paths none of which has more segments
    than the recursion depth left to [path_splitter], the flattener
    returns, and its result is as the specification describes it: one
    Display Node per distinct cumulative full path of the hits, in
    first-seen order, each with the lines of the hits that pass through
    it, in hit order and once per hit.  (On such a list [path_splitter]
    returns on every hit what the unlimited recursion computes, which is
    what [hit_paths] and [entries_from] are defined from.) *)
Lemma flatten_relative_nodes (depth : nat) (hits : list str) :
  Forall (fun f => isabs f = false ∧ length (str_split SEP f) ≤ depth) hits →
  let es := entries_from 0 hits in
  flatten depth hits = OK (map (node_of es) (first_seen es))
  ∧ NoDup (map entry_path (first_seen es))
  ∧ (∀ q, q ∈ map entry_path (first_seen es) ↔ ∃ f, f ∈ hits ∧ q ∈ hit_paths f)
  ∧ (∀ e, (node_of es e).1.2 = lines_through (entry_path e) 0 hits)
  ∧ (∀ f, f ∈ hits → ∃ toks, path_splitter depth f = OK toks ∧ split_all f = OK toks).
Proof.
  intros Hrel es.
  assert (Forall (splits depth) hits) as Hall.
  { eapply Forall_impl; [exact Hrel|]. intros f [Hf Hd]. by apply splits_segments. }
  split; [by apply flatten_returns|].
  split; [apply first_seen_NoDup|]. split; [|split].
  - intros q. rewrite first_seen_elem_of. apply entries_from_paths.
  - intros e. apply lines_at_entries.
  - intros f Hf. destruct (proj1 (Forall_forall _ _) Hall f Hf) as [toks Htoks].
    exists toks. split; [done|]. by apply (path_splitter_split_all depth).
Qed.

(** The scenario of the specification: three hits under [a]. *)
Example flatten_scenario :
  flatten default_depth demo_files
  = OK [(0, [0; 1; 2]%Z, BRANCH ++ py "a");
        (1, [0; 1]%Z, BRANCH ++ py "b");
        (2, [0%Z], py "x.txt");
        (2, [1%Z], py "y.txt");
        (1, [2%Z], BRANCH ++ py "c");
        (2, [2%Z], py "z.txt")].
Proof. vm_compute. reflexivity. Qed.

(** ** Absolute paths *)

(** A state whose Hit List is the one absolute path [/a]. *)
Definition abs_state : state :=
  mkState [[py "/a"]; []] false true [] 0 [py "/"] true [] 0 0 (py "vim") [].

(** C4, failing input: on the Hit List [["/a"]] the flattener creates no
    Display Node at all.  [os.path.split] maps ["/a"] to [("/", "a")]
    and ["/"] to [("/", "")], so [path_splitter] calls itself on ["/"]
    for ever: no bound on the depth lets it return, and [create_levels]
    ends in [RecursionError] with [treeview_levels] unchanged, whatever
    the recursion limit is. *)
Theorem create_levels_absolute_hit (w : world) (depth spare : nat) :
  path_split (py "/a") = (py "/", py "a")
  ∧ path_split (py "/") = (py "/", [])
  ∧ (∀ n, path_splitter_fuel n (py "/a") = None)
  ∧ flatten depth [py "/a"] = Raise RecursionError
  ∧ create_levels w spare abs_state = Raises RecursionError abs_state.
Proof.
  split; [reflexivity|]. split; [reflexivity|]. split; [|split].
  - intros n. by apply path_splitter_fuel_absolute.
  - apply flatten_absolute. by left.
  - rewrite create_levels_run.
    change (hits_of abs_state) with [py "/a"].
    rewrite flatten_absolute; [done | by left].
Qed.

(** A world whose only directory is [/d], holding the one file [f]. *)
Definition abs_world (depth : nat) : world :=
  mkWorld (fun root => if decide (root = py "/d")
                       then Some (Dir [] [py "f"]) else None)
          (fun _ _ => Raise OSError) (fun _ _ => Raise OSError) None None depth.

(** C9, failing input: started on the directory [/d], [main] indexes
    it and then ends in [RecursionError] inside [find_files], before the
    screen is set up, whatever keys would follow and whatever the
    recursion limit is; nothing was written to [stderr] by
    [find_files]. *)
Theorem find_files_absolute_root (depth : nat) (keys : list Z) :
  fs (abs_world depth) (py "/d") = Some (Dir [] [py "f"])
  ∧ ∃ st, main (abs_world depth) [] [py "/d"] keys (init_state (abs_world depth))
          = Raises RecursionError st
          ∧ files_of st = [py "/d/f"]
          ∧ stderr st = []
          ∧ mainscreen st = false.
Proof.
  split; [reflexivity|]. unfold main. cbn [for_].
  rewrite bind_run, ret_run, bind_run, modify_run, bind_run.
  set (st0 := set_roots [py "/d"] (init_state (abs_world depth))).
  assert (Forall (fun root => is_Some (fs (abs_world depth) root)) (roots st0)) as Hall
      by (repeat constructor; by eexists).
  rewrite (find_files_all_dirs (abs_world depth) 2 st0 Hall), create_levels_run.
  set (st1 := set_hits _ _).
  assert (hits_of st1 = [py "/d/f"]) as Hh by reflexivity.
  rewrite Hh, flatten_absolute by by left.
  exists st1. done.
Qed.

(** The second half of C9 holds for the loop over the roots: with every
    root a directory it returns and writes nothing; what [find_files]
    then raises, it raises in the flattener. *)
Lemma find_files_all_dirs_final (w : world) (spare : nat) (st : state) :
  Forall (fun root => is_Some (fs w root)) (roots st) →
  let st' := final (find_files w spare st) in
  stderr st' = stderr st
  ∧ hits st' = files st'
  ∧ (wf st → files_of st' = files_of st ++ flat_map (root_paths w) (roots st)).
Proof.
  intros Hall. simpl. rewrite find_files_all_dirs by done.
  rewrite create_levels_final.
  set (st1 := set_hits _ _).
  assert (stderr st1 = stderr st ∧ hits st1 = files st1
          ∧ (wf st → files_of st1 = files_of st ++ flat_map (root_paths w) (roots st)))
    as H.
  { split; [done|]. split; [done|]. intros [Hf _].
    subst st1. unfold files_of, extend, deref. simpl.
    by rewrite list_lookup_insert_eq by done. }
  by destruct (flatten _ (hits_of st1)).
Qed.

Lemma flatten_relative_nodes_witness :
  let es := entries_from 0 demo_files in
  flatten 3 demo_files = OK (map (node_of es) (first_seen es))
  ∧ NoDup (map entry_path (first_seen es))
  ∧ (∀ q, q ∈ map entry_path (first_seen es) ↔ ∃ f, f ∈ demo_files ∧ q ∈ hit_paths f)
  ∧ (∀ e, (node_of es e).1.2 = lines_through (entry_path e) 0 demo_files)
  ∧ (∀ f, f ∈ demo_files → ∃ toks, path_splitter 3 f = OK toks ∧ split_all f = OK toks).
Proof.
  apply (flatten_relative_nodes 3 demo_files).
  repeat constructor.
Defined.

(** With room for two activations only, the same three-segment hits end
    the flattener in [RecursionError]. *)
Example flatten_too_deep : flatten 2 demo_files = Raise RecursionError.
Proof. vm_compute. reflexivity. Qed.

(** ** Both names stay bound to objects of the heap *)

Ltac solve_wf :=
  unfold wf, extend in *; simpl in *; rewrite ?length_app, ?length_insert; simpl; lia.

Lemma wf_init (w : world) : wf (init_state w).
Proof. solve_wf. Qed.

Lemma wf_create_levels (w : world) (spare : nat) (st : state) :
  wf st → wf (final (create_levels w spare st)).
Proof. intros Hwf. rewrite create_levels_final. by destruct (flatten _ _). Qed.

Lemma wf_search_files (w : world) (st : state) :
  wf st → wf (final (search_files w st)).
Proof.
  intros Hwf. destruct (searchstr st) as [|c s] eqn:Es.
  - rewrite search_files_empty by done. apply wf_create_levels. solve_wf.
  - assert (searchstr st ≠ []) as Hs by by rewrite Es.
    destruct (fzf_match st) eqn:Hm.
    + destruct (fzf w (str_join [NL] (files_of st)) (searchstr st)) as [out|e] eqn:Ho.
      * rewrite (search_files_fzf_ok w st out) by done.
        apply wf_create_levels. solve_wf.
      * by rewrite (search_files_fzf_raise w st e).
    + rewrite search_files_regular by done. apply wf_create_levels. solve_wf.
Qed.

Lemma wf_find_files (w : world) (spare : nat) (st : state) :
  wf st → wf (final (find_files w spare st)).
Proof.
  intros Hwf.
  destruct (decide (Forall (fun root => is_Some (fs w root)) (roots st))) as [Hall|Hnot].
  - rewrite find_files_all_dirs by done. apply wf_create_levels. solve_wf.
  - destruct (find_files_bad_root w spare st Hnot) as (good & bad & rest & _ & _ & ->).
    solve_wf.
Qed.

Lemma wf_reload_tree (w : world) (st : state) :
  wf st → wf (final (reload_tree w st)).
Proof.
  intros Hwf. unfold reload_tree.
  rewrite bind_run, modify_run, bind_run, alloc_run, bind_run, modify_run.
  apply wf_find_files. solve_wf.
Qed.

Lemma wf_move_active (up : bool) (st : state) :
  wf st → wf (final (move_active up st)).
Proof.
  intros Hwf. unfold move_active. rewrite bind_run, get_run.
  destruct up.
  - by destruct (active st >? 0)%Z.
  - destruct (treeview st).
    + destruct (last (treeview_levels st)) as [[[level [|line0 line]] name]|];
        [done | | done]. by destruct (active st <? line0)%Z.
    + by destruct (active st + 1 <? _)%Z.
Qed.

Lemma wf_open_file (w : world) (st : state) :
  wf st → wf (final (open_file w st)).
Proof.
  intros Hwf. unfold open_file. rewrite bind_run, get_run.
  destruct (active st >=? 0)%Z; [|done].
  destruct (hits_of st !! Z.to_nat (active st)) as [f|]; [|done].
  rewrite bind_run. by destruct (run_editor w (editor st) f).
Qed.

Lemma final_bind {A B} (m : M A) (k : A → M B) (st : state) (P : state → Prop) :
  P (final (m st)) → (∀ a st', m st = Returns a st' → P (final (k a st'))) →
  P (final ((m ≫= k) st)).
Proof.
  intros Hm Hk. rewrite bind_run. destruct (m st) as [a st'|e st'] eqn:E; [|done].
  by apply (Hk a).
Qed.

Lemma final_seq_ret {A B} (m : M A) (b : B) (st : state) :
  final ((m ≫= fun _ => mret b) st) = final (m st).
Proof. rewrite bind_run. by destruct (m st). Qed.

Lemma wf_dispatch (w : world) (ch : Z) (st : state) :
  wf st → wf (final (dispatch w ch st)).
Proof.
  intros Hwf. unfold dispatch. rewrite bind_run, get_run.
  repeat match goal with
         | |- context [if ?b then _ else _] => destruct b
         end;
    rewrite ?final_seq_ret, ?modify_run, ?obj_update_run;
    first [ done
          | by apply wf_open_file
          | by apply wf_move_active
          | by apply wf_reload_tree
          | solve_wf ].
Qed.

Lemma wf_mainloop_body (w : world) (ch : Z) (st : state) :
  wf st → wf (final (mainloop_body w ch st)).
Proof.
  intros Hwf. unfold mainloop_body. apply final_bind; [by apply wf_dispatch|].
  intros [dosearch stop] st' Hd.
  assert (wf st') as Hwf' by (pose proof (wf_dispatch w ch st Hwf) as H; by rewrite Hd in H).
  destruct stop; [done|]. destruct dosearch; [|done].
  rewrite final_seq_ret. by apply wf_search_files.
Qed.

(** Along the whole interactive loop [files] and [hits] are bound to
    list objects, so the matcher theorems apply at every search. *)
Lemma wf_mainloop_from (w : world) (keys : list Z) (st : state) :
  wf st → wf (final (mainloop_from w keys st)).
Proof.
  revert st. induction keys as [|ch keys IH]; intros st Hwf; [done|].
  cbn [mainloop_from]. apply final_bind; [by apply wf_mainloop_body|].
  intros stop st' Hb.
  assert (wf st') as Hwf'
      by (pose proof (wf_mainloop_body w ch st Hwf) as H; by rewrite Hb in H).
  destruct stop; [done | by apply IH].
Qed.

(** ** When the flattener returns, and what its line lists hold *)

Lemma flatten_ok_splits (depth : nat) (hits : list str) (lv : list node) :
  flatten depth hits = OK lv → Forall (splits depth) hits.
Proof.
  intros Hok. destruct (splits_or_not depth hits) as [|Hex]; [done|].
  by rewrite flatten_raises in Hok.
Qed.

(** [create_levels] fails exactly when [path_splitter] fails on some
    hit, and then with [RecursionError]: always when a hit is an
    absolute path, never when every hit is a relative path with no more
    segments than the recursion depth left to [path_splitter].  Its
    dictionary look-ups never fail. *)
Theorem flatten_raises_iff_splitter_raises (depth : nat) (hits : list str) :
  (Exists (fun f => path_splitter depth f = Raise RecursionError) hits
   ↔ flatten depth hits = Raise RecursionError)
  ∧ (Forall (fun f => ∃ toks, path_splitter depth f = OK toks) hits
     ↔ ∃ lv, flatten depth hits = OK lv)
  ∧ (Exists (fun f => isabs f = true) hits → flatten depth hits = Raise RecursionError)
  ∧ (Forall (fun f => isabs f = false ∧ length (str_split SEP f) ≤ depth) hits →
     ∃ lv, flatten depth hits = OK lv)
  ∧ flatten depth hits ≠ Raise KeyError.
Proof.
  pose proof (splits_or_not depth hits) as Hcases.
  split; [|split; [|split; [|split]]].
  - split.
    + intros Hex. apply flatten_raises. eapply Exists_impl; [exact Hex|].
      intros f Hf [toks Htoks]. congruence.
    + intros Hr. destruct Hcases as [Hall|Hex]; [by rewrite flatten_returns in Hr|].
      eapply Exists_impl; [exact Hex|]. intros f Hf. simpl in Hf.
      destruct (path_splitter depth f) as [toks|e] eqn:E.
      * destruct Hf. by exists toks.
      * by apply path_splitter_raise in E as ->.
  - split.
    + intros Hall. eexists. by apply flatten_returns.
    + intros [lv Hlv]. by apply (flatten_ok_splits depth hits lv).
  - apply flatten_absolute.
  - intros Hrel. eexists. apply flatten_returns.
    eapply Forall_impl; [exact Hrel|]. intros f [Hf Hd]. by apply splits_segments.
  - destruct Hcases as [Hall|Hex].
    + by rewrite flatten_returns.
    + by rewrite flatten_raises.
Qed.

(** [path_splitter] on an absolute path raises [RecursionError] whatever
    the recursion depth.  On a relative path it has one result, which it
    returns exactly when the depth covers one activation per pair of the
    result (one for the empty path), and it raises [RecursionError]
    otherwise; the result has no more pairs than the path has segments,
    so a depth that covers the segments is enough. *)
Theorem path_splitter_returns_iff_depth (p : str) :
  (isabs p = true → ∀ depth, path_splitter depth p = Raise RecursionError)
  ∧ (isabs p = false →
     ∃ xx, length xx ≤ length (str_split SEP p)
           ∧ ∀ depth, path_splitter depth p =
                        if decide (0 < depth ∧ length xx ≤ depth)
                        then OK xx else Raise RecursionError)
  ∧ (∀ depth xx, path_splitter depth p = OK xx →
       isabs p = false ∧ 0 < depth ∧ length xx ≤ depth
       ∧ ∀ depth', depth ≤ depth' → path_splitter depth' p = OK xx).
Proof.
  split; [|split].
  - intros Habs depth. by apply path_splitter_absolute.
  - intros Hrel. apply split_all_returns in Hrel as [xx Hxx]. exists xx. split.
    + apply (split_all_length (S (length p))); [lia | done].
    + intros depth. by apply path_splitter_exact.
  - intros depth xx Hxx.
    pose proof (path_splitter_split_all depth p xx Hxx) as Hall.
    split; [apply (splits_relative depth); by exists xx|].
    rewrite (path_splitter_exact depth p xx Hall) in Hxx.
    destruct (decide (0 < depth ∧ length xx ≤ depth)) as [[H0 Hle]|]; [|done].
    split; [done|]. split; [done|]. intros depth' Hd.
    rewrite (path_splitter_exact depth' p xx Hall). rewrite decide_True by lia. done.
Qed.

Example path_splitter_depth_example :
  path_splitter 1 (py "a") = OK [([], py "a")]
  ∧ path_splitter 0 (py "a") = Raise RecursionError
  ∧ path_splitter 1 [] = OK []
  ∧ path_splitter 2 (py "a//b") = OK [([], py "a"); (py "a", py "b")]
  ∧ path_splitter 1 (py "a//b") = Raise RecursionError
  ∧ path_splitter default_depth (py "/a") = Raise RecursionError.
Proof. vm_compute. done. Qed.

Lemma lines_through_range (q : str) (ln : Z) (hits : list str) :
  Forall (fun l => ln ≤ l < ln + Z.of_nat (length hits))%Z (lines_through q ln hits)
  ∧ StronglySorted Z.lt (lines_through q ln hits).
Proof.
  revert ln. induction hits as [|f hits IH]; intros ln; cbn [lines_through].
  - split; constructor.
  - destruct (IH (ln + 1)%Z) as [Hr Hs].
    assert (Forall (fun l => ln + 1 ≤ l < ln + Z.of_nat (length (f :: hits)))%Z
                   (lines_through q (ln + 1) hits)) as Hr'.
    { eapply Forall_impl; [exact Hr|]. simpl. intros l Hl. cbn [length]. lia. }
    destruct (decide (q ∈ hit_paths f)); simpl.
    + split.
      * constructor; [cbn [length]; lia|].
        eapply Forall_impl; [exact Hr'|]. simpl. intros l Hl. lia.
      * constructor; [done|]. eapply Forall_impl; [exact Hr'|]. simpl. intros l Hl. lia.
    + split; [|done]. eapply Forall_impl; [exact Hr'|]. simpl. intros l Hl. lia.
Qed.

Lemma lines_through_hit (q : str) (ln : Z) (hits : list str) (j : nat) (f : str) :
  hits !! j = Some f → q ∈ hit_paths f →
  (ln + Z.of_nat j)%Z ∈ lines_through q ln hits.
Proof.
  revert ln j. induction hits as [|g hits IH]; intros ln j Hj Hq; [done|].
  cbn [lines_through]. destruct j as [|j]; simpl in Hj.
  - injection Hj as ->. rewrite decide_True by done.
    rewrite Z.add_0_r. left.
  - apply elem_of_app. right.
    replace (ln + Z.of_nat (S j))%Z with ((ln + 1) + Z.of_nat j)%Z by lia.
    by apply IH.
Qed.

(** The nodes of a flattening that returned, in terms of the hits. *)
Lemma flatten_ok_nodes (depth : nat) (hits : list str) (lv : list node) :
  flatten depth hits = OK lv →
  let es := entries_from 0 hits in
  lv = map (node_of es) (first_seen es)
  ∧ Forall (splits depth) hits.
Proof.
  intros Hok es. pose proof (flatten_ok_splits depth hits lv Hok) as Hall.
  split; [|done]. rewrite flatten_returns in Hok by done. by injection Hok.
Qed.

(** Every line list of a flattening is a non-empty, strictly increasing
    list of positions of the Hit List. *)
Lemma flatten_node_lines (depth : nat) (hits : list str) (lv : list node)
    (level : nat) (lines : list Z) (name : str) :
  flatten depth hits = OK lv → (level, lines, name) ∈ lv →
  lines ≠ []
  ∧ StronglySorted Z.lt lines
  ∧ Forall (fun l => 0 ≤ l < Z.of_nat (length hits))%Z lines.
Proof.
  intros Hok Hin. destruct (flatten_ok_nodes depth hits lv Hok) as [-> Hrel].
  apply list_elem_of_fmap in Hin as (e & He & Hin).
  unfold node_of in He. injection He as -> -> ->.
  split; [|rewrite lines_at_entries; destruct (lines_through_range (entry_path e) 0 hits);
           by split].
  intros Hnil. apply lines_at_nil_iff in Hnil. apply Hnil.
  apply list_elem_of_fmap. exists e. split; [done|]. by apply first_seen_paths.
Qed.

(** The line lists of the Display Nodes address the Hit List: each is
    non-empty, strictly increasing and within [0 .. len(hits) - 1], and
    the position of every non-empty hit is recorded in some node, so
    that no output line is left without a row. *)
Theorem flatten_lines_address_hits (depth : nat) (hits : list str) (lv : list node) :
  flatten depth hits = OK lv →
  (∀ level lines name, (level, lines, name) ∈ lv →
     lines ≠ [] ∧ StronglySorted Z.lt lines
     ∧ Forall (fun l => 0 ≤ l < Z.of_nat (length hits))%Z lines)
  ∧ (∀ j f, hits !! j = Some f → f ≠ [] →
       ∃ level lines name, (level, lines, name) ∈ lv ∧ Z.of_nat j ∈ lines).
Proof.
  intros Hok. split.
  - intros level lines name. by apply (flatten_node_lines depth).
  - intros j f Hj Hf. destruct (flatten_ok_nodes depth hits lv Hok) as [-> Hall].
    assert (splits depth f) as [toks Htoks].
    { apply (proj1 (Forall_forall _ _) Hall). by eapply list_elem_of_lookup_2. }
    apply path_splitter_split_all in Htoks.
    destruct toks as [|x toks]; [by apply split_all_nil in Htoks|].
    set (q := path_join x.1 x.2).
    assert (q ∈ hit_paths f) as Hq by (unfold hit_paths; rewrite Htoks; left).
    assert (q ∈ map entry_path (first_seen (entries_from 0 hits))) as Hin.
    { apply first_seen_elem_of, entries_from_paths. exists f.
      split; [by eapply list_elem_of_lookup_2 | done]. }
    apply list_elem_of_fmap in Hin as (e & He & Hin).
    exists e.1.1.1.1, (lines_at (entry_path e) (entries_from 0 hits)), e.1.2.
    split.
    + apply list_elem_of_fmap. by exists e.
    + rewrite lines_at_entries, <- He.
      by apply (lines_through_hit q 0 hits j f).
Qed.

Lemma flatten_lines_address_hits_witness :
  let lv := [(0, [0; 1; 2]%Z, BRANCH ++ py "a");
             (1, [0; 1]%Z, BRANCH ++ py "b");
             (2, [0%Z], py "x.txt");
             (2, [1%Z], py "y.txt");
             (1, [2%Z], BRANCH ++ py "c");
             (2, [2%Z], py "z.txt")] in
  (∀ level lines name, (level, lines, name) ∈ lv →
     lines ≠ [] ∧ StronglySorted Z.lt lines
     ∧ Forall (fun l => 0 ≤ l < Z.of_nat (length demo_files))%Z lines)
  ∧ (∀ j f, demo_files !! j = Some f → f ≠ [] →
       ∃ level lines name, (level, lines, name) ∈ lv ∧ Z.of_nat j ∈ lines).
Proof.
  apply (flatten_lines_address_hits default_depth demo_files).
  vm_compute. reflexivity.
Defined.

(** ** What a search leaves alone, and what the handling of a key can raise *)

(** The exceptions the functions modelled here raise: [RecursionError]
    from [path_splitter], [ValueError] from [chr] of a negative key
    code, [SystemExit(1)] from a reload with a root that is not a
    directory, and whatever launching [fzf] or the editor raises. *)
Definition allowed (w : world) (e : exn) : Prop :=
  e = RecursionError ∨ e = ValueError ∨ e = SystemExit 1
  ∨ (∃ a b, fzf w a b = Raise e) ∨ (∃ a b, run_editor w a b = Raise e).

(** The Display Nodes are those of the Hit List and the Active Index
    addresses the Hit List ([-1] when it is empty). *)
Definition consistent (w : world) (st : state) : Prop :=
  flatten (recursion_depth w + 1) (hits_of st) = OK (treeview_levels st)
  ∧ match hits_of st with
    | [] => active st = (-1)%Z
    | _ :: _ => (0 ≤ active st < Z.of_nat (length (hits_of st)))%Z
    end.

Lemma flatten_raise_recursion (depth : nat) (hits : list str) (e : exn) :
  flatten depth hits = Raise e → e = RecursionError.
Proof.
  intros Hr. destruct (splits_or_not depth hits) as [Hall|Hex].
  - by rewrite flatten_returns in Hr.
  - rewrite flatten_raises in Hr by done. congruence.
Qed.

(** The two ways of a search: [fzf] cannot be launched and nothing is
    assigned, or [hits] and [active] are assigned and the flattener
    runs. *)
Lemma search_files_cases (w : world) (st : state) :
  wf st →
  (∃ e, search_files w st = Raises e st ∧ ∃ a b, fzf w a b = Raise e)
  ∨ ∃ st1, search_files w st = create_levels w 1 st1
           ∧ wf st1
           ∧ active st1 = match hits_of st1 with [] => -1 | _ :: _ => 0 end%Z
           ∧ st1 = set_active (active st1) (set_hits (hits st1) (set_heap (heap st1) st))
           ∧ files_of st1 = files_of st
           ∧ length (heap st) ≤ length (heap st1) ≤ S (length (heap st)).
Proof.
  intros Hwf. pose proof Hwf as [Hf Hh].
  destruct (searchstr st) as [|c s] eqn:Es.
  - right. eexists. split; [by apply search_files_empty|].
    split; [solve_wf|]. split; [done|]. split; [by destruct st|].
    split; [done | simpl; lia].
  - assert (searchstr st ≠ []) as Hs by by rewrite Es.
    destruct (fzf_match st) eqn:Hm.
    + destruct (fzf w (str_join [NL] (files_of st)) (searchstr st)) as [out|e] eqn:Ho.
      * right. eexists. split; [by apply (search_files_fzf_ok w st out)|].
        split; [solve_wf|]. split.
        { simpl. unfold hits_of, deref. simpl.
          rewrite lookup_app_r by lia. by rewrite Nat.sub_diag. }
        split; [done|]. split; [|simpl; rewrite length_app; simpl; lia].
        unfold files_of, deref. simpl. by rewrite lookup_app_l.
      * left. exists e. split; [by apply search_files_fzf_raise | eauto].
    + right. eexists. split; [by apply search_files_regular|].
      split; [solve_wf|]. split.
      { simpl. unfold hits_of, deref. simpl.
        rewrite lookup_app_r by lia. by rewrite Nat.sub_diag. }
      split; [done|]. split; [|simpl; rewrite length_app; simpl; lia].
      unfold files_of, deref. simpl. by rewrite lookup_app_l.
Qed.

(** A search assigns [hits], [active] and [treeview_levels] and creates
    at most one list object; it never changes the token, the path list
    (neither the binding nor the contents), the modes, the roots, the
    editor, the screen or [stderr], whether it returns or raises. *)
Theorem search_files_frame (w : world) (st : state) :
  wf st →
  let st' := final (search_files w st) in
  searchstr st' = searchstr st
  ∧ files st' = files st ∧ files_of st' = files_of st
  ∧ fzf_match st' = fzf_match st ∧ treeview st' = treeview st
  ∧ roots st' = roots st ∧ editor st' = editor st
  ∧ mainscreen st' = mainscreen st ∧ stderr st' = stderr st
  ∧ length (heap st) ≤ length (heap st') ≤ S (length (heap st)).
Proof.
  intros Hwf st'. subst st'.
  destruct (search_files_cases w st Hwf)
    as [(e & -> & _)|(st1 & -> & Hwf1 & Ha & Hst1 & Hfiles & Hlen)].
  - simpl. repeat split; lia.
  - rewrite create_levels_final.
    assert (searchstr st1 = searchstr st ∧ files st1 = files st
            ∧ fzf_match st1 = fzf_match st ∧ treeview st1 = treeview st
            ∧ roots st1 = roots st ∧ editor st1 = editor st
            ∧ mainscreen st1 = mainscreen st ∧ stderr st1 = stderr st)
      as (H1 & H2 & H3 & H4 & H5 & H6 & H7 & H8) by (rewrite Hst1; done).
    destruct (flatten _ (hits_of st1)); simpl; repeat split; done || lia.
Qed.

Lemma search_files_frame_witness :
  let st := demo_state (py "a/b") in
  let st' := final (search_files bare_world st) in
  searchstr st' = searchstr st
  ∧ files st' = files st ∧ files_of st' = files_of st
  ∧ fzf_match st' = fzf_match st ∧ treeview st' = treeview st
  ∧ roots st' = roots st ∧ editor st' = editor st
  ∧ mainscreen st' = mainscreen st ∧ stderr st' = stderr st
  ∧ length (heap st) ≤ length (heap st') ≤ S (length (heap st)).
Proof.
  apply (search_files_frame bare_world (demo_state (py "a/b"))).
  split; simpl; lia.
Defined.

(** What a call may do: return with the names bound and the globals
    consistent, or raise an allowed exception. *)
Definition behaves (w : world) {A} (o : outcome A) : Prop :=
  match o with
  | Returns _ st' => wf st' ∧ consistent w st'
  | Raises e _ => allowed w e
  end.

Lemma create_levels_behaves (w : world) (st1 : state) :
  wf st1 →
  active st1 = match hits_of st1 with [] => -1 | _ :: _ => 0 end%Z →
  behaves w (create_levels w 1 st1).
Proof.
  intros Hwf Ha. rewrite create_levels_run.
  destruct (flatten _ (hits_of st1)) as [lv|e] eqn:Hfl; simpl.
  - split; [done|]. split; [done|].
    change (hits_of (set_treeview_levels lv st1)) with (hits_of st1).
    change (active (set_treeview_levels lv st1)) with (active st1).
    rewrite Ha. destruct (hits_of st1); [done|]. simpl length. lia.
  - left. by apply flatten_raise_recursion in Hfl.
Qed.

(** A search that returns leaves the globals consistent. *)
Lemma search_files_behaves (w : world) (st : state) :
  wf st → behaves w (search_files w st).
Proof.
  intros Hwf. destruct (search_files_cases w st Hwf)
    as [(e & -> & Hfzf)|(st1 & -> & Hwf1 & Ha & _)].
  - simpl. right. right. right. by left.
  - by apply create_levels_behaves.
Qed.

(** With consistent globals a move never indexes an empty line list: it
    returns, and the globals stay consistent. *)
Lemma move_active_consistent (w : world) (up : bool) (st : state) :
  wf st → consistent w st →
  ∃ st', move_active up st = Returns tt st' ∧ wf st' ∧ consistent w st'.
Proof.
  intros Hwf [Hfl Hact]. destruct up.
  - rewrite move_up_run. eexists. split; [done|].
    destruct (Z.gtb_spec (active st) 0); [|done].
    split; [done|]. split; [done|].
    change (hits_of (set_active (active st - 1) st)) with (hits_of st).
    destruct (hits_of st); simpl in *; lia.
  - destruct (treeview st) eqn:Ht.
    + destruct (last (treeview_levels st)) as [[[level ln] name]|] eqn:Hl.
      * assert ((level, ln, name) ∈ treeview_levels st) as Hin
            by by apply last_Some_elem_of.
        destruct (flatten_node_lines _ _ _ level ln name Hfl Hin) as (Hne & _ & Hrange).
        destruct ln as [|line0 line]; [done|].
        apply Forall_inv in Hrange.
        rewrite (move_down_tree_run st level line0 line name Ht Hl).
        eexists. split; [done|].
        destruct (Z.ltb_spec (active st) line0); [|done].
        split; [done|]. split; [done|].
        change (hits_of (set_active (active st + 1) st)) with (hits_of st).
        destruct (hits_of st); simpl in *; lia.
      * apply last_None in Hl. rewrite move_down_tree_empty_run by done.
        by exists st.
    + rewrite move_down_flat_run by done. eexists. split; [done|].
      destruct (Z.ltb_spec (active st + 1) (Z.of_nat (length (hits_of st)))); [|done].
      split; [done|]. split; [done|].
      change (hits_of (set_active (active st + 1) st)) with (hits_of st).
      destruct (hits_of st); simpl in *; lia.
Qed.

Lemma move_active_behaves (w : world) (up : bool) (st : state) :
  wf st → consistent w st → behaves w (move_active up st).
Proof.
  intros Hwf Hc.
  by destruct (move_active_consistent w up st Hwf Hc) as (st' & -> & Hwf' & Hc').
Qed.

(** With consistent globals [hits[active]] exists. *)
Lemma hits_active_exists (w : world) (st : state) :
  consistent w st → (0 ≤ active st)%Z → is_Some (hits_of st !! Z.to_nat (active st)).
Proof.
  intros [_ Hact] Hge. apply lookup_lt_is_Some.
  destruct (hits_of st); simpl in *; lia.
Qed.

Lemma open_file_behaves (w : world) (st : state) :
  wf st → consistent w st → behaves w (open_file w st).
Proof.
  intros Hwf Hc.
  unfold open_file. rewrite bind_run, get_run.
  destruct (Z.geb_spec (active st) 0) as [Hge|Hlt]; [|done].
  destruct (hits_active_exists w st Hc Hge) as [f ->].
  rewrite bind_run. destruct (run_editor w (editor st) f) as [rc|e] eqn:He; [done|].
  simpl. right. right. right. right. eauto.
Qed.

Lemma find_files_behaves (w : world) (spare : nat) (st : state) :
  wf st →
  match find_files w spare st with
  | Returns _ st' => wf st'
  | Raises e _ => allowed w e
  end.
Proof.
  intros Hwf. pose proof (wf_find_files w spare st Hwf) as Hwf'.
  destruct (decide (Forall (fun root => is_Some (fs w root)) (roots st))) as [Hall|Hnot].
  - rewrite find_files_all_dirs in * by done. rewrite create_levels_run in *.
    destruct (flatten _ _) as [lv|e] eqn:Hfl; [done|].
    left. by apply flatten_raise_recursion in Hfl.
  - destruct (find_files_bad_root w spare st Hnot) as (good & bad & rest & _ & _ & ->).
    right. right. by left.
Qed.

Lemma reload_tree_behaves (w : world) (st : state) :
  wf st →
  match reload_tree w st with
  | Returns _ st' => wf st'
  | Raises e _ => allowed w e
  end.
Proof.
  intros Hwf. unfold reload_tree.
  rewrite bind_run, modify_run, bind_run, alloc_run, bind_run, modify_run.
  apply find_files_behaves. solve_wf.
Qed.

(** The key dispatch: when it does not ask for a search, the globals
    stay consistent. *)
Lemma dispatch_behaves (w : world) (ch : Z) (st : state) :
  wf st → consistent w st →
  match dispatch w ch st with
  | Returns (dosearch, stop) st' =>
      wf st' ∧ (dosearch = false ∨ stop = true → consistent w st')
  | Raises e _ => allowed w e
  end.
Proof.
  intros Hwf Hc. unfold dispatch. rewrite bind_run, get_run.
  repeat match goal with
         | |- context [if ?b then _ else _] => destruct b
         end;
    rewrite ?bind_run, ?modify_run, ?obj_update_run, ?ret_run, ?raise_run;
    try (split; [solve_wf | intros [?|?]; done]);
    try (right; by left).
  - pose proof (open_file_behaves w st Hwf Hc) as H.
    destruct (open_file w st); [destruct H; split; auto | exact H].
  - pose proof (move_active_behaves w true st Hwf Hc) as H.
    destruct (move_active true st); [destruct H; split; auto | exact H].
  - pose proof (move_active_behaves w false st Hwf Hc) as H.
    destruct (move_active false st); [destruct H; split; auto | exact H].
  - pose proof (reload_tree_behaves w st Hwf) as H.
    destruct (reload_tree w st); [|exact H]. split; [exact H | intros [?|?]; done].
Qed.

Lemma mainloop_body_behaves (w : world) (ch : Z) (st : state) :
  wf st → consistent w st → behaves w (mainloop_body w ch st).
Proof.
  intros Hwf Hc. unfold mainloop_body. rewrite bind_run.
  pose proof (dispatch_behaves w ch st Hwf Hc) as H.
  destruct (dispatch w ch st) as [[dosearch stop] st'|e st']; [|done].
  destruct H as [Hwf' Hc']. destruct stop; [split; auto|].
  destruct dosearch; [|split; auto].
  rewrite bind_run. pose proof (search_files_behaves w st' Hwf') as Hs.
  by destruct (search_files w st').
Qed.

(** An [IndexError] or a [KeyError] is allowed only as the exception of
    a launch. *)
Lemma allowed_subscript (w : world) (e : exn) :
  allowed w e → e = IndexError ∨ e = KeyError →
  (∃ a b, fzf w a b = Raise e) ∨ (∃ a b, run_editor w a b = Raise e).
Proof.
  intros [->|[->|[->|[H|H]]]] [?|?]; try discriminate; (by left) || (by right).
Qed.

(** The subscripts and dictionary look-ups of the key handling never
    fail.  A search from any globals, when it returns, leaves them
    consistent: the Display Nodes are those of the Hit List and the
    Active Index is a position of it ([-1] when it is empty).  From
    consistent globals [move_active] returns ([treeview_levels[-1]] and
    [line[0]] exist), [hits[active]] exists whenever [open_file]
    evaluates it, and the handling of any key (the [if]/[elif] chain of
    [mainloop], the functions it calls and the search that follows)
    leaves the globals consistent when it returns, so that the same
    holds at the next key.  No [IndexError] and no [KeyError] comes out
    of a search or of the handling of a key, unless launching [fzf] or
    the editor raised it.  ([drawscreen], [easylog] and the signal
    handler are not part of the statement: they assign no global.) *)
Theorem key_handling_subscripts (w : world) (ch : Z) (st : state) :
  wf st →
  match search_files w st with
  | Returns _ st' => wf st' ∧ consistent w st'
  | Raises e _ => e = IndexError ∨ e = KeyError → ∃ a b, fzf w a b = Raise e
  end
  ∧ (consistent w st →
     (∀ up, ∃ st', move_active up st = Returns tt st' ∧ wf st' ∧ consistent w st')
     ∧ ((0 ≤ active st)%Z → is_Some (hits_of st !! Z.to_nat (active st)))
     ∧ match mainloop_body w ch st with
       | Returns _ st' => wf st' ∧ consistent w st'
       | Raises e _ =>
           e = IndexError ∨ e = KeyError →
           (∃ a b, fzf w a b = Raise e) ∨ (∃ a b, run_editor w a b = Raise e)
       end).
Proof.
  intros Hwf. split.
  - destruct (search_files_cases w st Hwf)
      as [(e & -> & Hfzf)|(st1 & Hrun & Hwf1 & Ha & _)]; [by intros _|].
    pose proof (create_levels_behaves w st1 Hwf1 Ha) as Hb. rewrite Hrun.
    destruct (create_levels w 1 st1) as [u st'|e st'] eqn:E; [done|].
    rewrite create_levels_run in E.
    destruct (flatten _ _) as [lv|e'] eqn:Hfl; [done|].
    injection E as -> _. apply flatten_raise_recursion in Hfl as ->.
    by intros [?|?].
  - intros Hc. split; [|split].
    + intros up. by apply move_active_consistent.
    + by apply (hits_active_exists w).
    + pose proof (mainloop_body_behaves w ch st Hwf Hc) as Hb.
      destruct (mainloop_body w ch st) as [stop st'|e st']; [done|].
      by apply allowed_subscript.
Qed.

Lemma demo_consistent :
  consistent bare_world (final (search_files bare_world (demo_state (py "a/b")))).
Proof. vm_compute. split; [reflexivity|]. split; [discriminate | reflexivity]. Defined.

Lemma key_handling_subscripts_witness :
  let st := final (search_files bare_world (demo_state (py "a/b"))) in
  match search_files bare_world st with
  | Returns _ st' => wf st' ∧ consistent bare_world st'
  | Raises e _ => e = IndexError ∨ e = KeyError → ∃ a b, fzf bare_world a b = Raise e
  end
  ∧ (∀ up, ∃ st', move_active up st = Returns tt st'
                  ∧ wf st' ∧ consistent bare_world st')
  ∧ ((0 ≤ active st)%Z → is_Some (hits_of st !! Z.to_nat (active st)))
  ∧ match mainloop_body bare_world 10 st with
    | Returns _ st' => wf st' ∧ consistent bare_world st'
    | Raises e _ =>
        e = IndexError ∨ e = KeyError →
        (∃ a b, fzf bare_world a b = Raise e)
        ∨ (∃ a b, run_editor bare_world a b = Raise e)
    end.
Proof.
  destruct (key_handling_subscripts bare_world 10
              (final (search_files bare_world (demo_state (py "a/b")))))
    as [Hsearch Hkey].
  - apply wf_search_files. split; simpl; lia.
  - split; [exact Hsearch | exact (Hkey demo_consistent)].
Defined.

(** In that state Return (10) runs the editor on [hits[0]]; in the world
    without an editor the launch raises. *)
Example return_key_opens_active :
  let st := final (search_files bare_world (demo_state (py "a/b"))) in
  hits_of st !! Z.to_nat (active st) = Some (py "a/b/x.txt")
  ∧ mainloop_body bare_world 10 st = Raises OSError st.
Proof. vm_compute. done. Qed.

(** ** What the indexer leaves out, and what a reload discards *)

Lemma mem_false (x : str) (l : list str) : mem x l = false ↔ x ∉ l.
Proof. unfold mem. apply bool_decide_eq_false. Qed.

(** Every file of a directory tree, pruned or not: the names of the
    directories that lead to it from the top, and its own name; in the
    order of a top-down walk (the files of a directory, then its
    sub-directories in listing order). *)
Fixpoint all_files (t : dirtree) : list (list str * str) :=
  match t with
  | Dir subdirs nondirs =>
      map (fun x => ([], x)) nondirs
        ++ (fix descend (ds : list dirent) :=
              match ds with
              | [] => []
              | Entry d sub :: ds' =>
                  map (fun '(names, x) => (d :: names, x)) (all_files sub)
                    ++ descend ds'
              end) subdirs
  end.

(** The exclusion rule: no directory on the way is named in [skipdirs],
    and the file is not named in [skipfiles]. *)
Definition indexed (file : list str * str) : bool :=
  forallb (fun d => negb (mem d skipdirs)) file.1 && negb (mem file.2 skipfiles).

(** The path [find_files] gives a file: [os.path.join] along the way. *)
Definition path_of (top : str) (file : list str * str) : str :=
  path_join (foldl path_join top file.1) file.2.

Lemma indexed_cons (d : str) (names : list str) (x : str) :
  indexed (d :: names, x) = negb (mem d skipdirs) && indexed (names, x).
Proof. unfold indexed. cbn [fst snd forallb]. by rewrite andb_assoc. Qed.

Lemma paths_of_walk_app (a b : list (str * list str * list str)) :
  paths_of_walk (a ++ b) = paths_of_walk a ++ paths_of_walk b.
Proof. unfold paths_of_walk. apply flat_map_app. Qed.

Lemma walk_all_files :
  ∀ (t : dirtree) (top : str),
    paths_of_walk (walk top t) = map (path_of top) (List.filter indexed (all_files t)).
Proof.
  fix IH 1. intros [subdirs nondirs] top.
  cbn [walk all_files]. change (?x :: ?l) with ([x] ++ l) at 1.
  rewrite paths_of_walk_app, List.filter_app, map_app. f_equal.
  - unfold paths_of_walk. cbn [flat_map]. rewrite app_nil_r.
    induction nondirs as [|x nondirs IHn]; [done|].
    cbn [filter map List.filter]. unfold indexed at 1. cbn [fst snd forallb andb].
    destruct (mem x skipfiles) eqn:Hx.
    + rewrite filter_cons_False by (rewrite Hx; simpl; tauto). exact IHn.
    + rewrite filter_cons_True by (rewrite Hx; simpl; tauto).
      cbn [negb map]. by rewrite <- IHn.
  - induction subdirs as [|[d sub] subdirs IHs]; [done|].
    rewrite paths_of_walk_app, List.filter_app, map_app, <- IHs. f_equal.
    assert (∀ l : list (list str * str),
              map (path_of top)
                  (List.filter indexed (map (fun '(names, x) => (d :: names, x)) l))
              = if mem d skipdirs then []
                else map (path_of (path_join top d)) (List.filter indexed l)) as Hmap.
    { intros l. induction l as [|[names x] l IHl]; [by destruct (mem d skipdirs)|].
      cbn [map List.filter]. rewrite indexed_cons.
      destruct (mem d skipdirs) eqn:Hd; cbn [negb andb]; [exact IHl|].
      destruct (indexed (names, x)); [|exact IHl].
      cbn [map]. by rewrite IHl. }
    rewrite Hmap. destruct (mem d skipdirs); [done | apply IH].
Qed.

(** The exclusion rules of the indexer.  Pruning the walk at every
    directory named in [skipdirs] and dropping the files named in
    [skipfiles] gives, for each root, exactly the files of the whole tree
    that have no directory named in [skipdirs] on the way from the root
    and are not themselves named in [skipfiles], each once, in walk
    order, with the path [os.path.join] builds along the way.  What lies
    below an excluded directory is never indexed, whatever its name; a
    root is not tested against [skipdirs]. *)
Theorem indexed_paths_filter_tree (w : world) (root : str) (t : dirtree) :
  fs w root = Some t →
  root_paths w root = map (path_of root) (List.filter indexed (all_files t))
  ∧ (∀ names x, (names, x) ∈ all_files t →
       (Exists (fun d => d ∈ skipdirs) names ∨ x ∈ skipfiles) →
       (names, x) ∉ List.filter indexed (all_files t)).
Proof.
  intros Ht. split.
  - unfold root_paths. rewrite Ht. apply walk_all_files.
  - intros names x _ Hex Hin. apply list_elem_of_In, filter_In in Hin as [_ Hin].
    unfold indexed in Hin. cbn [fst snd] in Hin.
    apply andb_true_iff in Hin as [Hn Hx].
    destruct Hex as [Hex|Hex].
    + apply Exists_exists in Hex as (d & Hd & Hskip).
      rewrite forallb_forall in Hn. apply list_elem_of_In in Hd.
      specialize (Hn d Hd). apply negb_true_iff, mem_false in Hn. done.
    + apply negb_true_iff, mem_false in Hx. done.
Qed.

(** A world with one directory, [src]: a file, a [.git] directory and a
    sub-directory holding a file and an excluded file. *)
Definition src_world : world :=
  mkWorld (fun root =>
             if decide (root = py "src") then
               Some (Dir [Entry (py ".git") (Dir [] [py "config"]);
                          Entry (py "lib") (Dir [] [py "a.py"; py ".jtvrc"])]
                         [py "main.py"])
             else None)
          (fun _ _ => Raise OSError) (fun _ _ => Raise OSError) None None
          default_depth.

Definition src_tree : dirtree :=
  Dir [Entry (py ".git") (Dir [] [py "config"]);
       Entry (py "lib") (Dir [] [py "a.py"; py ".jtvrc"])]
      [py "main.py"].

Example src_world_paths :
  all_files src_tree
  = [([], py "main.py"); ([py ".git"], py "config");
     ([py "lib"], py "a.py"); ([py "lib"], py ".jtvrc")]
  ∧ List.filter indexed (all_files src_tree)
    = [([], py "main.py"); ([py "lib"], py "a.py")]
  ∧ root_paths src_world (py "src") = [py "src/main.py"; py "src/lib/a.py"].
Proof. vm_compute. done. Qed.

Lemma indexed_paths_filter_tree_witness :
  root_paths src_world (py "src")
  = map (path_of (py "src")) (List.filter indexed (all_files src_tree))
  ∧ (∀ names x, (names, x) ∈ all_files src_tree →
       (Exists (fun d => d ∈ skipdirs) names ∨ x ∈ skipfiles) →
       (names, x) ∉ List.filter indexed (all_files src_tree)).
Proof.
  apply (indexed_paths_filter_tree src_world (py "src") src_tree).
  reflexivity.
Defined.

(** With every root a directory, [find_files] appends to the list
    [files] is bound to, in place, the paths found under each root in the
    order of the roots, binds [hits] to that same list and writes nothing
    to [stderr], also when the flattener then raises. *)
Theorem find_files_appends_in_order (w : world) (spare : nat) (st : state) :
  wf st → Forall (fun root => is_Some (fs w root)) (roots st) →
  let st' := final (find_files w spare st) in
  files_of st' = files_of st ++ flat_map (root_paths w) (roots st)
  ∧ files st' = files st
  ∧ hits st' = files st'
  ∧ stderr st' = stderr st
  ∧ length (heap st') = length (heap st).
Proof.
  intros [Hf _] Hall. simpl. rewrite find_files_all_dirs by done.
  rewrite create_levels_final.
  set (st1 := set_hits _ _).
  assert (files_of st1 = files_of st ++ flat_map (root_paths w) (roots st)
          ∧ files st1 = files st ∧ hits st1 = files st1 ∧ stderr st1 = stderr st
          ∧ length (heap st1) = length (heap st)) as H.
  { subst st1. unfold files_of, extend, deref. simpl.
    rewrite list_lookup_insert_eq, length_insert by done. done. }
  by destruct (flatten _ (hits_of st1)).
Qed.

Lemma find_files_appends_in_order_witness :
  let st := init_state src_world in
  let st' := final (find_files src_world 2 st) in
  files_of st' = files_of st ++ flat_map (root_paths src_world) (roots st)
  ∧ files st' = files st
  ∧ hits st' = files st'
  ∧ stderr st' = stderr st
  ∧ length (heap st') = length (heap st).
Proof.
  apply (find_files_appends_in_order src_world 2 (init_state src_world)).
  - apply wf_init.
  - repeat constructor. vm_compute. eauto.
Defined.

(** A reload discards the path list instead of appending to it: with
    every root a directory, [files] is bound to a new list object holding
    exactly the paths found now, [hits] is bound to the same object, the
    old list object is left as it was, and the Active Index and the token
    are not touched. *)
Theorem reload_tree_discards (w : world) (st : state) :
  wf st → Forall (fun root => is_Some (fs w root)) (roots st) →
  let st' := final (reload_tree w st) in
  files_of st' = flat_map (root_paths w) (roots st)
  ∧ files st' = length (heap st)
  ∧ hits st' = files st'
  ∧ deref st' (files st) = files_of st
  ∧ active st' = active st
  ∧ searchstr st' = searchstr st.
Proof.
  intros [Hf Hh] Hall. simpl. unfold reload_tree.
  rewrite bind_run, modify_run, bind_run, alloc_run, bind_run, modify_run.
  set (st0 := set_files _ _).
  assert (roots st0 = roots st) as Hroots by done.
  rewrite find_files_all_dirs by by rewrite Hroots.
  rewrite create_levels_final, Hroots.
  set (st1 := set_hits _ _).
  assert (files_of st1 = flat_map (root_paths w) (roots st)
          ∧ files st1 = length (heap st) ∧ hits st1 = files st1
          ∧ deref st1 (files st) = files_of st
          ∧ active st1 = active st ∧ searchstr st1 = searchstr st) as H.
  { assert (files_of st0 = []) as Hnil.
    { subst st0. unfold files_of, deref. simpl.
      rewrite lookup_app_r by lia. by rewrite Nat.sub_diag. }
    subst st1. unfold extend. rewrite Hnil. subst st0.
    unfold files_of, deref. simpl.
    rewrite list_lookup_insert_eq by (rewrite length_app; simpl; lia).
    assert (length (heap st) ≠ files st) as Hne by lia.
    rewrite (list_lookup_insert_ne _ _ _ _ Hne).
    rewrite lookup_app_l by done. done. }
  by destruct (flatten _ (hits_of st1)).
Qed.

Lemma reload_tree_discards_witness :
  let st := final (find_files src_world 2 (init_state src_world)) in
  let st' := final (reload_tree src_world st) in
  files_of st' = flat_map (root_paths src_world) (roots st)
  ∧ files st' = length (heap st)
  ∧ hits st' = files st'
  ∧ deref st' (files st) = files_of st
  ∧ active st' = active st
  ∧ searchstr st' = searchstr st.
Proof.
  apply (reload_tree_discards src_world
           (final (find_files src_world 2 (init_state src_world)))).
  - apply wf_find_files, wf_init.
  - repeat constructor. vm_compute. eauto.
Defined.

(** ** Keys in regular mode: reverse, and type then delete *)

(** The Hit List is the match of the current token against the current
    path list, as the regular matcher computes it. *)
Definition matched (st : state) : Prop :=
  hits_of st = match searchstr st with
               | [] => files_of st
               | _ :: _ => List.filter (keeps (searchstr st)) (files_of st)
               end.

Lemma search_files_matched (w : world) (st : state) :
  wf st → fzf_match st = false →
  let st' := final (search_files w st) in
  matched st' ∧ searchstr st' = searchstr st ∧ files_of st' = files_of st
  ∧ files st' = files st ∧ fzf_match st' = false ∧ wf st'.
Proof.
  intros Hwf Hm st'.
  assert (searchstr st' = searchstr st ∧ files st' = files st
          ∧ fzf_match st' = fzf_match st) as (Hs & Hfl & Hm').
  { subst st'. destruct (search_files_cases w st Hwf)
      as [(e & -> & _)|(st1 & -> & _ & _ & Hst1 & _)]; [done|].
    rewrite create_levels_final.
    assert (searchstr st1 = searchstr st ∧ files st1 = files st
            ∧ fzf_match st1 = fzf_match st) as H by (rewrite Hst1; done).
    by destruct (flatten _ (hits_of st1)). }
  assert (wf st') as Hwf' by by apply wf_search_files.
  unfold matched. rewrite Hs. destruct (searchstr st) as [|c s] eqn:Es.
  - subst st'. rewrite search_files_empty in * by done.
    rewrite create_levels_final in *.
    by destruct (flatten _ _).
  - assert (searchstr st ≠ []) as Hne by by rewrite Es.
    destruct (search_files_regular_final w st Hwf Hne Hm) as (Hh & Hf & _).
    fold st' in Hh, Hf. rewrite Es in Hh. rewrite Hh, Hf, Hm'. done.
Qed.

Lemma dispatch_reverse (w : world) (st : state) :
  dispatch w 18 st
  = Returns (true, false) (set_heap (<[files st := rev (files_of st)]> (heap st)) st).
Proof. reflexivity. Qed.

(** Ctrl+R in regular mode reverses the Hit List: the path list is
    reversed in place and the search that follows keeps the same paths
    in the reversed order. *)
Theorem reverse_key_reverses_hits (w : world) (st : state) :
  wf st → fzf_match st = false → matched st →
  let st' := final (mainloop_body w 18 st) in
  files_of st' = rev (files_of st)
  ∧ hits_of st' = rev (hits_of st)
  ∧ files st' = files st
  ∧ searchstr st' = searchstr st.
Proof.
  intros Hwf Hm Hmatched st'. subst st'. pose proof Hwf as [Hf Hh].
  unfold mainloop_body. rewrite bind_run, dispatch_reverse. cbn match.
  rewrite final_seq_ret.
  set (st1 := set_heap _ st).
  assert (wf st1) as Hwf1 by (subst st1; solve_wf).
  assert (files_of st1 = rev (files_of st)) as Hfiles1
      by (subst st1; unfold files_of; simpl; by rewrite deref_insert_eq).
  destruct (search_files_matched w st1 Hwf1 Hm) as (Hma & Hs & Hfo & Hfl & _ & _).
  rewrite Hfo, Hfiles1, Hfl, Hs. repeat split; try done.
  unfold matched in Hma, Hmatched. rewrite Hma, Hs, Hfo, Hfiles1, Hmatched.
  change (searchstr st1) with (searchstr st).
  destruct (searchstr st); [done | apply List.filter_rev].
Qed.

Lemma reverse_key_reverses_hits_witness :
  let st := final (search_files bare_world (demo_state (py "a/b"))) in
  let st' := final (mainloop_body bare_world 18 st) in
  files_of st' = rev (files_of st)
  ∧ hits_of st' = rev (hits_of st)
  ∧ files st' = files st
  ∧ searchstr st' = searchstr st.
Proof.
  apply (reverse_key_reverses_hits bare_world
           (final (search_files bare_world (demo_state (py "a/b"))))).
  - apply wf_search_files. split; simpl; lia.
  - reflexivity.
  - vm_compute. reflexivity.
Defined.

Lemma isprintable_range (ch : Z) : isprintable ch = true → (32 ≤ ch ≤ 254)%Z.
Proof. unfold isprintable. lia. Qed.

Lemma dispatch_printable (w : world) (ch : Z) (st : state) :
  isprintable ch = true →
  dispatch w ch st
  = Returns (true, false) (set_searchstr (searchstr st ++ [Z.to_N ch]) st).
Proof.
  intros Hp. pose proof (isprintable_range ch Hp) as Hr.
  unfold dispatch. rewrite bind_run, get_run.
  unfold KEY_BACKSPACE, KEY_RESIZE.
  repeat match goal with
         | |- context [(ch =? ?k)%Z] => destruct (Z.eqb_spec ch k); [lia|]
         end.
  destruct (Z.gtb_spec ch 255); [lia|]. destruct (Z.ltb_spec ch 255); [|lia].
  destruct (Z.ltb_spec ch 0); [lia|]. rewrite Hp. by simpl.
Qed.

Lemma dispatch_backspace (w : world) (st : state) :
  searchstr st ≠ [] →
  dispatch w KEY_BACKSPACE st
  = Returns (true, false) (set_searchstr (removelast (searchstr st)) st).
Proof.
  intros Hs. unfold dispatch. rewrite bind_run, get_run.
  rewrite bool_decide_eq_true_2 by done. done.
Qed.

(** Typing a printable character and deleting it again, in regular
    mode: when both searches return, the token is what it was, the path
    list is unchanged, and the Hit List is the match of that token (with
    the Active Index reset to its first position). *)
Theorem type_then_backspace (w : world) (ch : Z) (st st' : state) :
  wf st → fzf_match st = false → isprintable ch = true →
  mainloop_from w [ch; KEY_BACKSPACE] st = Returns Waiting st' →
  searchstr st' = searchstr st
  ∧ files_of st' = files_of st
  ∧ matched st'
  ∧ consistent w st'.
Proof.
  intros Hwf Hm Hp Hrun. cbn [mainloop_from] in Hrun.
  rewrite bind_run in Hrun. unfold mainloop_body at 1 in Hrun.
  rewrite bind_run, dispatch_printable in Hrun by done. cbn match in Hrun.
  set (sta := set_searchstr _ st) in Hrun.
  assert (wf sta) as Hwfa by done.
  destruct (search_files_matched w sta Hwfa Hm) as (_ & Hsb & Hfb & _ & Hmb & Hwfb).
  rewrite bind_run in Hrun.
  destruct (search_files w sta) as [[] stb|e stb] eqn:Esa; [|done].
  cbn [final] in Hsb, Hfb, Hmb, Hwfb. rewrite ret_run in Hrun. cbn match in Hrun.
  rewrite bind_run in Hrun. unfold mainloop_body in Hrun.
  assert (searchstr stb ≠ []) as Hne.
  { rewrite Hsb. subst sta. simpl. by destruct (searchstr st). }
  rewrite bind_run, dispatch_backspace in Hrun by done. cbn match in Hrun.
  set (stc := set_searchstr _ stb) in Hrun.
  assert (searchstr stc = searchstr st) as Hsc.
  { subst stc. simpl. rewrite Hsb. subst sta. simpl. apply removelast_last. }
  assert (wf stc) as Hwfc by done.
  destruct (search_files_matched w stc Hwfc Hmb) as (Hmd & Hsd & Hfd & _ & _ & _).
  pose proof (search_files_behaves w stc Hwfc) as Hbd.
  rewrite bind_run in Hrun.
  destruct (search_files w stc) as [[] std|e std] eqn:Esc; [|done].
  rewrite ret_run in Hrun. cbn match in Hrun. rewrite ret_run in Hrun.
  injection Hrun as <-. cbn [final] in Hmd, Hsd, Hfd. destruct Hbd as [_ Hcd].
  split; [congruence|]. split; [|done].
  rewrite Hfd. change (files_of stc) with (files_of stb). rewrite Hfb. done.
Qed.

Lemma type_then_backspace_witness :
  let st := demo_state (py "a/") in
  let st' := final (mainloop_from bare_world [98; KEY_BACKSPACE]%Z st) in
  searchstr st' = searchstr st
  ∧ files_of st' = files_of st
  ∧ matched st'
  ∧ consistent bare_world st'.
Proof.
  apply (type_then_backspace bare_world 98 (demo_state (py "a/"))).
  - split; simpl; lia.
  - reflexivity.
  - reflexivity.
  - vm_compute. reflexivity.
Defined.

(** ** The state file: store_state and restore_state *)

(** [store_state]: what the state file holds after the call, [old]
    being what it held before ([None]: no file).  With an empty token the
    file is removed, otherwise the token is written.  [io_ok = false]:
    logging, removing or opening the file raised; the exception is
    swallowed and the file is as before.  (A failure in the middle of the
    write is not modelled.) *)
Definition store_state (io_ok : bool) (old : option str) (st : state) : option str :=
  if io_ok then
    match searchstr st with
    | [] => None
    | _ :: _ => Some (searchstr st)
    end
  else old.

(** The same world with another state file. *)
Definition with_state_file (text : option str) (w : world) : world :=
  mkWorld (fs w) (fzf w) (run_editor w) text (env_editor w) (recursion_depth w).

Lemma search_files_final_searchstr (w : world) (st : state) :
  wf st → searchstr (final (search_files w st)) = searchstr st.
Proof.
  intros Hwf. destruct (search_files_cases w st Hwf)
    as [(e & -> & _)|(st1 & -> & _ & _ & Hst1 & _)]; [done|].
  rewrite create_levels_final.
  assert (searchstr st1 = searchstr st) as H by (rewrite Hst1; done).
  by destruct (flatten _ (hits_of st1)).
Qed.

Lemma restore_state_final (w : world) (st : state) :
  final (restore_state w st) =
    match state_file w with
    | Some text =>
        match strip text with
        | [] => st
        | c :: content => final (search_files w (set_searchstr (c :: content) st))
        end
    | None => st
    end.
Proof.
  unfold restore_state. destruct (state_file w) as [text|]; [|done].
  destruct (strip text) as [|c content]; [done|].
  destruct (search_files w _) as [u st'|e st']; [done|]. by destruct e.
Qed.

(** The token survives a quit and a restart up to surrounding white
    space: after [store_state] wrote the file, [restore_state] on a fresh
    state sets the token to the stored token stripped (the empty token
    when nothing but white space was stored, or nothing at all); in
    regular mode it always returns, whatever the search raises, and a
    non-blank restored token has been searched for. *)
Theorem state_file_round_trip (w : world) (old : option str) (st st0 : state) :
  wf st0 → searchstr st0 = [] →
  let w' := with_state_file (store_state true old st) w in
  searchstr (final (restore_state w' st0)) = strip (searchstr st)
  ∧ (fzf_match st0 = false →
     (∃ st', restore_state w' st0 = Returns tt st')
     ∧ (strip (searchstr st) ≠ [] →
        hits_of (final (restore_state w' st0))
        = List.filter (keeps (strip (searchstr st))) (files_of st0))).
Proof.
  intros Hwf Hs0 w'. rewrite restore_state_final. unfold restore_state.
  assert (state_file w' = match searchstr st with
                          | [] => None
                          | _ :: _ => Some (searchstr st)
                          end) as -> by done.
  destruct (searchstr st) as [|c s] eqn:Es.
  { split; [by rewrite Hs0|]. intros _. split; [by eexists | done]. }
  destruct (strip (c :: s)) as [|c' content] eqn:Estrip.
  { split; [by rewrite Hs0|]. intros _. split; [by eexists | done]. }
  set (st1 := set_searchstr (c' :: content) st0).
  assert (wf st1) as Hwf1 by done.
  split; [by rewrite search_files_final_searchstr|].
  intros Hm. split.
  - pose proof (search_files_behaves w' st1 Hwf1) as Hb.
    assert (searchstr st1 ≠ []) as Hne by done.
    rewrite (search_files_regular w' st1 Hwf1 Hne Hm) in *.
    rewrite create_levels_run in *.
    destruct (flatten _ _) as [lv|e] eqn:Hfl; [by eexists|].
    apply flatten_raise_recursion in Hfl as ->. by eexists.
  - intros _.
    destruct (search_files_regular_final w' st1 Hwf1) as (Hh & _ & _); done.
Qed.

Lemma state_file_round_trip_witness :
  let st := demo_state (py " a/b ") in
  let st0 := demo_state [] in
  let w' := with_state_file (store_state true None st) bare_world in
  searchstr (final (restore_state w' st0)) = strip (searchstr st)
  ∧ (fzf_match st0 = false →
     (∃ st', restore_state w' st0 = Returns tt st')
     ∧ (strip (searchstr st) ≠ [] →
        hits_of (final (restore_state w' st0))
        = List.filter (keeps (strip (searchstr st))) (files_of st0))).
Proof.
  apply (state_file_round_trip bare_world None (demo_state (py " a/b ")) (demo_state [])).
  - split; simpl; lia.
  - reflexivity.
Defined.

Example state_file_strips :
  searchstr (final (restore_state
                      (with_state_file (store_state true None (demo_state (py " a/b ")))
                                       bare_world)
                      (demo_state [])))
  = py "a/b".
Proof. vm_compute. reflexivity. Qed.

(** ** niceopt: long options with a single dash *)

Definition DASH : N := 45.     (* '-' *)
Definition EQUALS : N := 61.   (* '=' *)

(** The condition of [niceopt] on an argument and a long option; [and]
    tests [opt[-1]] only after [e.startswith("-" + opt[:-1])]. *)
Definition niceopt_match (e opt : str) : bool :=
  startswith e (DASH :: opt)
  || (startswith e (DASH :: removelast opt)
      && match last opt with
         | Some c => N.eqb c EQUALS
         | None => false
         end).

(** The loops of [niceopt]: [argv] as it is handed to
    [getopt.gnu_getopt]. *)
Definition niceopt_rewrite (argv long_opts : list str) : list str :=
  map (fun e => if existsb (niceopt_match e) long_opts then DASH :: e else e) argv.

(** The long options of [main]. *)
Definition main_long_opts : list str :=
  [py "help"; py "version"; py "fzf"; py "editor="].

Lemma startswith_cons_ne (e t : str) (c d : N) :
  c ≠ d → startswith (d :: e) (c :: t) = false.
Proof. intros Hne. simpl. by destruct (N.eqb_spec c d). Qed.

Lemma startswith_nil_l (t : str) : startswith [] t = true → t = [].
Proof. by destruct t. Qed.

Lemma niceopt_match_dash (e opt : str) : niceopt_match e opt = true → ∃ e', e = DASH :: e'.
Proof.
  unfold niceopt_match. intros H. apply orb_true_iff in H as [H|H].
  - destruct e as [|d e]; [done|]. simpl in H.
    destruct (N.eqb_spec DASH d) as [<-|]; [by eexists | done].
  - apply andb_true_iff in H as [H _]. destruct e as [|d e]; [done|]. simpl in H.
    destruct (N.eqb_spec DASH d) as [<-|]; [by eexists | done].
Qed.

Lemma niceopt_match_twice (e opt : str) (c : N) (rest : str) :
  opt = c :: rest → c ≠ DASH → c ≠ EQUALS →
  niceopt_match (DASH :: DASH :: e) opt = false.
Proof.
  intros -> Hd He. unfold niceopt_match. apply orb_false_iff. split.
  - simpl. by destruct (N.eqb_spec c DASH).
  - destruct rest as [|c2 rest].
    + simpl. by destruct (N.eqb_spec c EQUALS).
    + apply andb_false_iff. left.
      change (removelast (c :: c2 :: rest)) with (c :: removelast (c2 :: rest)).
      simpl. by destruct (N.eqb_spec c DASH).
Qed.

(** [niceopt] hands [getopt] as many arguments as it got; each is
    unchanged or has gained one dash, and only an argument that starts
    with a dash can gain one, so directory arguments pass unchanged; when
    no long option starts with ['-'] or ['='], rewriting once more
    changes nothing. *)
Theorem niceopt_rewrite_once (argv long_opts : list str) :
  Forall (fun opt => ∃ c rest, opt = c :: rest ∧ c ≠ DASH ∧ c ≠ EQUALS) long_opts →
  length (niceopt_rewrite argv long_opts) = length argv
  ∧ (∀ i e, argv !! i = Some e →
       niceopt_rewrite argv long_opts !! i = Some e
       ∨ (niceopt_rewrite argv long_opts !! i = Some (DASH :: e)
          ∧ ∃ e', e = DASH :: e'))
  ∧ niceopt_rewrite (niceopt_rewrite argv long_opts) long_opts
    = niceopt_rewrite argv long_opts.
Proof.
  intros Hopts. unfold niceopt_rewrite. split; [apply length_map|]. split.
  - intros i e Hi. change map with (@fmap list _).
    rewrite list_lookup_fmap, Hi. simpl.
    destruct (existsb (niceopt_match e) long_opts) eqn:E; [right | by left].
    split; [done|]. apply existsb_exists in E as (opt & _ & Hm).
    by apply niceopt_match_dash in Hm.
  - rewrite map_map. apply map_ext. intros e.
    destruct (existsb (niceopt_match e) long_opts) eqn:E; [|by rewrite E].
    apply existsb_exists in E as (opt0 & _ & Hm0).
    apply niceopt_match_dash in Hm0 as [e' ->].
    assert (existsb (niceopt_match (DASH :: DASH :: e')) long_opts = false) as ->; [|done].
    apply not_true_iff_false. intros E. apply existsb_exists in E as (opt & Hin & Hm).
    apply list_elem_of_In in Hin.
    destruct (proj1 (Forall_forall _ _) Hopts opt Hin) as (c & rest & Hopt & Hd & He).
    by rewrite (niceopt_match_twice e' opt c rest) in Hm.
Qed.

Lemma niceopt_rewrite_once_witness :
  let argv := [py "-fzf"; py "-editor=vi"; py "--help"; py "-v"; py "src"] in
  length (niceopt_rewrite argv main_long_opts) = length argv
  ∧ (∀ i e, argv !! i = Some e →
       niceopt_rewrite argv main_long_opts !! i = Some e
       ∨ (niceopt_rewrite argv main_long_opts !! i = Some (DASH :: e)
          ∧ ∃ e', e = DASH :: e'))
  ∧ niceopt_rewrite (niceopt_rewrite argv main_long_opts) main_long_opts
    = niceopt_rewrite argv main_long_opts.
Proof.
  apply (niceopt_rewrite_once
           [py "-fzf"; py "-editor=vi"; py "--help"; py "-v"; py "src"] main_long_opts).
  repeat constructor; eexists _, _; (split; [reflexivity|]); split; discriminate.
Defined.

Example niceopt_rewrite_example :
  niceopt_rewrite [py "-fzf"; py "-editor=vi"; py "--help"; py "-v"; py "src"]
                  main_long_opts
  = [py "--fzf"; py "--editor=vi"; py "--help"; py "-v"; py "src"].
Proof. vm_compute. reflexivity. Qed.

(** ** Help and version come first *)

(** The option asks for the help text or the version. *)
Definition exits (oa : str * str) : Prop :=
  mem oa.1 [py "-h"; py "--help"] = true ∨ mem oa.1 [py "-v"; py "--version"] = true.

(** [st'] differs from [st] in [fzf_match] and [editor] at most. *)
Definition options_only (st st' : state) : Prop :=
  st' = set_editor (editor st') (set_fzf_match (fzf_match st') st).

Lemma options_only_refl (st : state) : options_only st st.
Proof. unfold options_only. by destruct st. Qed.

Lemma options_loop_exits (opts : list (str * str)) (st0 st : state) :
  options_only st0 st → Exists exits opts →
  ∃ st', for_ opts (fun '(o, a) =>
           (if mem o [py "-h"; py "--help"] then raise (SystemExit 0) else mret tt);;
           (if mem o [py "-v"; py "--version"] then raise (SystemExit 0) else mret tt);;
           (if mem o [py "-f"; py "--fzf"] then modify (set_fzf_match true) else mret tt);;
           (if mem o [py "-e"; py "--editor"] then modify (set_editor a) else mret tt)) st
         = Raises (SystemExit 0) st'
         ∧ options_only st0 st'.
Proof.
  revert st. induction opts as [|[o a] opts IH]; intros st Hst Hex.
  { by apply Exists_nil in Hex. }
  cbn [for_]. rewrite bind_run, bind_run.
  destruct (mem o [py "-h"; py "--help"]) eqn:Hh; [by exists st|].
  rewrite ret_run, bind_run.
  destruct (mem o [py "-v"; py "--version"]) eqn:Hv; [by exists st|].
  rewrite ret_run, bind_run.
  apply Exists_cons in Hex as [[Hex|Hex]|Hex]; [simpl in Hex; congruence ..|].
  destruct (mem o [py "-f"; py "--fzf"]); destruct (mem o [py "-e"; py "--editor"]);
    rewrite ?modify_run, ?ret_run; cbn match;
    rewrite ?modify_run, ?ret_run; cbn match;
    apply IH; try done; unfold options_only in *; rewrite Hst; done.
Qed.

(** An option [-h], [--help], [-v] or [--version] ends [main] with
    [SystemExit(0)] before anything else happens: the roots are not
    assigned, no directory is looked at (not even to report one that is
    missing), nothing is indexed and the screen is not set up; only
    options that came before it have set [fzf_match] or [editor]. *)
Theorem main_help_first (w : world) (opts : list (str * str)) (args : list str)
    (keys : list Z) :
  Exists exits opts →
  ∃ st, main w opts args keys (init_state w) = Raises (SystemExit 0) st
        ∧ options_only (init_state w) st.
Proof.
  intros Hex. unfold main. rewrite bind_run.
  destruct (options_loop_exits opts (init_state w) (init_state w)
              (options_only_refl _) Hex) as (st' & -> & Hst').
  by exists st'.
Qed.

Lemma main_help_first_witness :
  ∃ st, main bare_world [(py "-f", []); (py "--help", [])] [py "nowhere"] []
             (init_state bare_world)
        = Raises (SystemExit 0) st
        ∧ options_only (init_state bare_world) st.
Proof.
  apply (main_help_first bare_world [(py "-f", []); (py "--help", [])] [py "nowhere"] []).
  right. left. left. reflexivity.
Defined.

(** ** A root that is not a directory *)

(** Without a help or version option the loop over the options returns,
    having set [fzf_match] or [editor] at most. *)
Lemma options_loop_returns (opts : list (str * str)) (st0 st : state) :
  options_only st0 st → Forall (fun oa => ¬ exits oa) opts →
  ∃ st', for_ opts (fun '(o, a) =>
           (if mem o [py "-h"; py "--help"] then raise (SystemExit 0) else mret tt);;
           (if mem o [py "-v"; py "--version"] then raise (SystemExit 0) else mret tt);;
           (if mem o [py "-f"; py "--fzf"] then modify (set_fzf_match true) else mret tt);;
           (if mem o [py "-e"; py "--editor"] then modify (set_editor a) else mret tt)) st
         = Returns tt st'
         ∧ options_only st0 st'.
Proof.
  revert st. induction opts as [|[o a] opts IH]; intros st Hst Hall.
  { by exists st. }
  apply Forall_cons in Hall as [Hoa Hall]. unfold exits in Hoa. cbn [fst] in Hoa.
  cbn [for_]. rewrite bind_run, bind_run.
  destruct (mem o [py "-h"; py "--help"]) eqn:Hh; [destruct Hoa; by left|].
  rewrite ret_run, bind_run.
  destruct (mem o [py "-v"; py "--version"]) eqn:Hv; [destruct Hoa; by right|].
  rewrite ret_run, bind_run.
  destruct (mem o [py "-f"; py "--fzf"]); destruct (mem o [py "-e"; py "--editor"]);
    rewrite ?modify_run, ?ret_run; cbn match;
    rewrite ?modify_run, ?ret_run; cbn match;
    apply IH; try done; unfold options_only in *; rewrite Hst; done.
Qed.

(** [find_files] stops at the first root that is not a directory. *)
Lemma find_files_first_bad (w : world) (spare : nat) (st : state)
    (good rest : list str) (bad : str) :
  roots st = good ++ bad :: rest →
  Forall (fun root => is_Some (fs w root)) good → fs w bad = None →
  find_files w spare st =
    Raises (SystemExit 1)
      (set_stderr (stderr st ++ [not_found bad])
         (extend (flat_map (root_paths w) good) st)).
Proof.
  intros Hroots Hg Hb. unfold find_files. rewrite bind_run, get_run, bind_run, Hroots.
  by rewrite (root_loop_bad w good rest bad st Hg Hb).
Qed.

(** The first half of C9 holds as stated.  When no option asks for the
    help text or the version and some root is not a directory, [main]
    ends in [SystemExit(1)] inside [find_files]: the one message written
    to [stderr] names the first such root, in the order of the arguments
    (the default root [src] when there is no argument); the roots before
    it have been indexed, those after it have not been looked at, and
    the screen is never set up, whatever the options and the keys. *)
Theorem main_bad_root (w : world) (opts : list (str * str)) (args good rest : list str)
    (bad : str) (keys : list Z) :
  Forall (fun oa => ¬ exits oa) opts →
  match args with [] => [py "src"] | _ :: _ => args end = good ++ bad :: rest →
  Forall (fun root => is_Some (fs w root)) good → fs w bad = None →
  ∃ st, main w opts args keys (init_state w) = Raises (SystemExit 1) st
        ∧ stderr st = [not_found bad]
        ∧ files_of st = flat_map (root_paths w) good
        ∧ mainscreen st = false.
Proof.
  intros Hopts Hroots Hgood Hbad. unfold main. rewrite bind_run.
  destruct (options_loop_returns opts (init_state w) (init_state w)
              (options_only_refl _) Hopts) as (st1 & -> & Hst1).
  rewrite bind_run.
  assert (∀ st2, roots st2 = good ++ bad :: rest →
                 st2 = set_roots (roots st2) st1 →
                 ∃ st, find_files w 2 st2 = Raises (SystemExit 1) st
                       ∧ stderr st = [not_found bad]
                       ∧ files_of st = flat_map (root_paths w) good
                       ∧ mainscreen st = false) as Hfind.
  { intros st2 Hr Hst2.
    rewrite (find_files_first_bad w 2 st2 good rest bad Hr Hgood Hbad).
    eexists. split; [done|]. rewrite Hst2, Hst1.
    unfold files_of, extend, deref. simpl. done. }
  destruct args as [|a args].
  - rewrite ret_run, bind_run.
    destruct (Hfind st1) as (st & -> & Hst);
      [unfold options_only in Hst1; rewrite Hst1; exact Hroots | by destruct st1|].
    by exists st.
  - rewrite modify_run, bind_run.
    destruct (Hfind (set_roots (a :: args) st1)) as (st & -> & Hst); [done | done|].
    by exists st.
Qed.

Lemma main_bad_root_witness :
  ∃ st, main src_world [(py "-f", [])] [py "src"; py "nowhere"; py "other"] []
             (init_state src_world)
        = Raises (SystemExit 1) st
        ∧ stderr st = [not_found (py "nowhere")]
        ∧ files_of st = flat_map (root_paths src_world) [py "src"]
        ∧ mainscreen st = false.
Proof.
  apply (main_bad_root src_world [(py "-f", [])] [py "src"; py "nowhere"; py "other"]
           [py "src"] [py "other"] (py "nowhere") []).
  - constructor; [|constructor]. intros [H|H]; vm_compute in H; discriminate H.
  - reflexivity.
  - repeat constructor. vm_compute. eauto.
  - reflexivity.
Defined.

Example main_bad_root_message :
  ∃ st, main src_world [(py "-f", [])] [py "src"; py "nowhere"; py "other"] []
             (init_state src_world)
        = Raises (SystemExit 1) st
        ∧ stderr st = [py "[ERROR] directory not found: nowhere" ++ [NL]]
        ∧ files_of st = [py "src/main.py"; py "src/lib/a.py"]
        ∧ fzf_match st = true.
Proof. eexists. vm_compute. done. Qed.

(** ** Fuzzy mode never shows the empty state *)

(** In fuzzy mode, whenever [fzf] runs, the Hit List has at least one
    entry and the Active Index is 0: an output without a visible
    character gives the Hit List [['']], one empty path, not the empty
    list. *)
Theorem fzf_hits_never_empty (w : world) (st : state) (output : str) :
  fzf_match st = true → searchstr st ≠ [] →
  fzf w (str_join [NL] (files_of st)) (searchstr st) = OK output →
  let st' := final (search_files w st) in
  hits_of st' ≠ []
  ∧ active st' = 0%Z
  ∧ (strip output = [] → hits_of st' = [[]]).
Proof.
  intros Hm Hs Ho st'. subst st'.
  rewrite (search_files_fzf_ok w st output Hm Hs Ho).
  rewrite create_levels_final.
  pose proof (str_split_not_nil NL (strip output)) as Hne.
  set (st1 := set_active _ _).
  assert (hits_of st1 = str_split NL (strip output)) as Hh.
  { subst st1. unfold hits_of, deref. simpl.
    rewrite lookup_app_r by lia. by rewrite Nat.sub_diag. }
  assert (active st1 = 0%Z) as Ha.
  { subst st1. simpl. by destruct (str_split NL (strip output)). }
  assert (hits_of st1 ≠ [] ∧ active st1 = 0%Z
          ∧ (strip output = [] → hits_of st1 = [[]])) as H.
  { rewrite Hh. split; [done|]. split; [done|]. by intros ->. }
  by destruct (flatten _ (hits_of st1)).
Qed.

Lemma fzf_hits_never_empty_witness :
  let st := fzf_state (py "x") in
  let st' := final (search_files silent_world st) in
  hits_of st' ≠ []
  ∧ active st' = 0%Z
  ∧ (strip [] = [] → hits_of st' = [[]]).
Proof.
  apply (fzf_hits_never_empty silent_world (fzf_state (py "x")) []).
  - reflexivity.
  - discriminate.
  - reflexivity.
Defined.

(** ** In regular mode the Hit List follows the token *)

Lemma find_files_fzf_match (w : world) (spare : nat) (st : state) :
  fzf_match (final (find_files w spare st)) = fzf_match st.
Proof.
  destruct (decide (Forall (fun root => is_Some (fs w root)) (roots st))) as [Hall|Hnot].
  - rewrite find_files_all_dirs by done. rewrite create_levels_final.
    by destruct (flatten _ _).
  - by destruct (find_files_bad_root w spare st Hnot) as (good & bad & rest & _ & _ & ->).
Qed.

Lemma reload_tree_fzf_match (w : world) (st : state) :
  fzf_match (final (reload_tree w st)) = fzf_match st.
Proof.
  unfold reload_tree.
  rewrite bind_run, modify_run, bind_run, alloc_run, bind_run, modify_run.
  by rewrite find_files_fzf_match.
Qed.

Lemma open_file_returns (w : world) (st st' : state) (u : unit) :
  open_file w st = Returns u st' → st' = st.
Proof.
  unfold open_file. rewrite bind_run, get_run.
  destruct (active st >=? 0)%Z; [|by intros [= _ ->]].
  destruct (hits_of st !! Z.to_nat (active st)) as [f|]; [|done].
  rewrite bind_run. destruct (run_editor w (editor st) f); [|done].
  by intros [= _ ->].
Qed.

Lemma move_active_returns (up : bool) (st st' : state) (u : unit) :
  move_active up st = Returns u st' → ∃ a, st' = set_active a st.
Proof.
  unfold move_active. rewrite bind_run, get_run. intros H.
  assert (st' = st → ∃ a, st' = set_active a st) as Hsame
      by (intros ->; exists (active st); by rewrite set_active_id).
  destruct up.
  - destruct (active st >? 0)%Z; injection H as <-; eauto.
  - destruct (treeview st).
    + destruct (last (treeview_levels st)) as [[[level [|line0 line]] name]|];
        [done | | injection H as <-; eauto].
      destruct (active st <? line0)%Z; injection H as <-; eauto.
    + destruct (active st + 1 <? _)%Z; injection H as <-; eauto.
Qed.

Lemma dispatch_matched (w : world) (ch : Z) (st : state) :
  wf st → fzf_match st = false → matched st → ch ≠ 330%Z → ch ≠ 11%Z →
  match dispatch w ch st with
  | Returns (dosearch, stop) st' =>
      wf st' ∧ fzf_match st' = false
      ∧ (dosearch = false ∨ stop = true → matched st')
  | Raises _ _ => True
  end.
Proof.
  intros Hwf Hm Hma H330 H11. unfold dispatch. rewrite bind_run, get_run.
  repeat match goal with
         | |- context [if ?b then _ else _] => destruct b eqn:?
         end;
    try match goal with
        | H : (ch =? 330)%Z = true |- _ => apply Z.eqb_eq in H; contradiction
        | H : (ch =? 11)%Z = true |- _ => apply Z.eqb_eq in H; contradiction
        end;
    rewrite ?bind_run, ?modify_run, ?obj_update_run, ?ret_run, ?raise_run;
    try done;
    try (split; [solve_wf | split; [done | intros [?|?]; done]]).
  - destruct (open_file w st) as [u st'|e st'] eqn:E; [|done].
    apply open_file_returns in E as ->. by rewrite ret_run.
  - destruct (move_active true st) as [u st'|e st'] eqn:E; [|done].
    apply move_active_returns in E as [a ->]. by rewrite ret_run.
  - destruct (move_active false st) as [u st'|e st'] eqn:E; [|done].
    apply move_active_returns in E as [a ->]. by rewrite ret_run.
  - pose proof (wf_reload_tree w st Hwf) as Hwf'.
    pose proof (reload_tree_fzf_match w st) as Hm'.
    destruct (reload_tree w st) as [u st'|e st']; [|done]. rewrite ret_run.
    cbn [final] in Hm', Hwf'.
    split; [done|]. split; [by rewrite Hm' | intros [?|?]; done].
Qed.

(** In regular mode, from globals in which the Hit List is the match of
    the token against the path list (as it is after every search in
    regular mode), the handling of a key other than Delete (330) and the
    mode toggle Ctrl+U (11), when it returns, leaves the Hit List the
    match of the token against the path list as they are then.  Without
    the premise this fails: after Delete the Hit List is stale, and it
    stays so under the keys that trigger no search. *)
Theorem regular_mode_hits_follow_token (w : world) (ch : Z) (st st' : state)
    (stop : bool) :
  wf st → fzf_match st = false → matched st → ch ≠ 330%Z → ch ≠ 11%Z →
  mainloop_body w ch st = Returns stop st' →
  matched st' ∧ fzf_match st' = false ∧ wf st'.
Proof.
  intros Hwf Hm Hma H330 H11. unfold mainloop_body. rewrite bind_run.
  pose proof (dispatch_matched w ch st Hwf Hm Hma H330 H11) as H.
  destruct (dispatch w ch st) as [[dosearch stop'] st1|e st1]; [|done].
  destruct H as (Hwf1 & Hm1 & Hma1).
  destruct stop'; [intros [= _ <-]; auto|].
  destruct dosearch; [|intros [= _ <-]; auto].
  rewrite bind_run.
  destruct (search_files_matched w st1 Hwf1 Hm1) as (Hma2 & _ & _ & _ & Hm2 & Hwf2).
  destruct (search_files w st1) as [u st2|e st2]; [|done].
  by intros [= _ <-].
Qed.

Lemma regular_mode_hits_follow_token_witness :
  let st := final (search_files bare_world (demo_state (py "a/b"))) in
  let st' := final (mainloop_body bare_world 47 st) in
  matched st' ∧ fzf_match st' = false ∧ wf st'.
Proof.
  apply (regular_mode_hits_follow_token bare_world 47
           (final (search_files bare_world (demo_state (py "a/b")))) _ false).
  - apply wf_search_files. split; simpl; lia.
  - reflexivity.
  - vm_compute. reflexivity.
  - discriminate.
  - discriminate.
  - vm_compute. reflexivity.
Defined.

(** Delete (330) is the exception: it empties the token without a
    search, and the Hit List stays the match of the old token. *)
Example delete_key_leaves_hits :
  let st := final (search_files bare_world (demo_state (py "x."))) in
  let st' := final (mainloop_body bare_world 330 st) in
  searchstr st' = [] ∧ hits_of st' = [py "a/b/x.txt"] ∧ files_of st' = demo_files.
Proof. vm_compute. repeat split. Qed.
